(** * Wikitext template resolution and etymology clean-up

    A shallow embedding of the pure text-processing core of
    [scripts/etymology.py]: the template parser and interpreter
    ([parse_wiki_template]), and the resolution loop, link flattener, markup
    scrubber and quality gate of [fetch_etymology_parse_api]; then the prose
    formatter ([clean_html], [format_etymology]), the removal of the old
    origin section, the front matter, [fetch_etymology], the loop of
    [process_all], and [extract_see_also] of [scripts/migrate_see_also.py].

    A Python [str] is a sequence of Unicode code points; it is modelled as a
    list of code points ([N]).  Each regular expression of the source is
    modelled by a matcher that decides, at one position of the text, whether
    the expression matches there and how many characters it consumes; the
    scanning discipline of [re.sub] (leftmost match, no overlap) is a single
    generic driver. *)

From stdpp Require Import base option list strings gmap.
From Stdlib Require Import NArith ZArith Lia.

Local Open Scope N_scope.

(** ** Strings as sequences of code points *)

Abbreviation char := N.
Abbreviation str := (list N).

(** Literals are written as UTF-8 text and decoded to code points. *)
Fixpoint utf8_decode (acc : N) (pending : nat) (bytes : list N) : str :=
  match bytes with
  | [] => []
  | b :: bytes' =>
    match pending with
    | S k =>
      let acc' := acc * 64 + b mod 64 in
      match k with
      | O => acc' :: utf8_decode 0 O bytes'
      | S _ => utf8_decode acc' k bytes'
      end
    | O =>
      if b <? 128 then b :: utf8_decode 0 O bytes'
      else if b <? 224 then utf8_decode (b mod 32) 1%nat bytes'
      else if b <? 240 then utf8_decode (b mod 16) 2%nat bytes'
      else utf8_decode (b mod 8) 3%nat bytes'
    end
  end.

Fixpoint string_bytes (s : string) : list N :=
  match s with
  | EmptyString => []
  | String a s' => Ascii.N_of_ascii a :: string_bytes s'
  end.

Definition lit (s : string) : str := utf8_decode 0 O (string_bytes s).

Fixpoint eqb_str (a b : str) : bool :=
  match a, b with
  | [], [] => true
  | x :: a', y :: b' => (x =? y) && eqb_str a' b'
  | _, _ => false
  end.

(** ['c' in s] *)
Definition contains (c : char) (s : str) : bool := existsb (N.eqb c) s.

Definition nonempty {A} (l : list A) : bool :=
  match l with [] => false | _ :: _ => true end.

(** The characters Python treats as whitespace in [str.strip()] and in the
    regular-expression class [\s] on [str] patterns. *)
Definition py_isspace (c : char) : bool :=
  ((9 <=? c) && (c <=? 13)) || ((28 <=? c) && (c <=? 32)) ||
  (c =? 133) || (c =? 160) || (c =? 5760) ||
  ((8192 <=? c) && (c <=? 8202)) || (c =? 8232) || (c =? 8233) ||
  (c =? 8239) || (c =? 8287) || (c =? 12288).

Fixpoint dropwhile (p : char -> bool) (s : str) : str :=
  match s with
  | [] => []
  | c :: s' => if p c then dropwhile p s' else s
  end.

(** [s.strip(chars)]: drop the characters of the set from both ends. *)
Definition strip_chars (p : char -> bool) (s : str) : str :=
  reverse (dropwhile p (reverse (dropwhile p s))).

(** [s.strip()] *)
Definition strip (s : str) : str := strip_chars py_isspace s.

Definition is_brace (c : char) : bool := (c =? 123) || (c =? 125).
Definition is_bracket (c : char) : bool := (c =? 91) || (c =? 93).

(** [s.split(sep)] for a one-character separator: never the empty list. *)
Fixpoint split_on (sep : char) (s : str) : list str :=
  match s with
  | [] => [[]]
  | c :: s' =>
    if c =? sep then [] :: split_on sep s'
    else match split_on sep s' with
         | p :: ps => (c :: p) :: ps
         | [] => [[c]]
         end
  end.

(** [s.split(sep, 1)]: at most one cut, at the first separator. *)
Fixpoint split_once (sep : char) (s : str) : list str :=
  match s with
  | [] => [[]]
  | c :: s' =>
    if c =? sep then [[]; s']
    else match split_once sep s' with
         | p :: ps => (c :: p) :: ps
         | [] => [[c]]
         end
  end.

(** ** Exceptions *)

Inductive exn := IndexError | ValueError.

Inductive result (A : Type) :=
| Ok (a : A)
| Raise (e : exn).
Arguments Ok {A} a.
Arguments Raise {A} e.

#[export] Instance result_bind : MBind result := λ A B k r,
  match r with
  | Ok a => k a
  | Raise e => Raise e
  end.

(** [l[i]] raises [IndexError] out of range. *)
Definition getitem {A} (l : list A) (i : nat) : result A :=
  match l !! i with
  | Some x => Ok x
  | None => Raise IndexError
  end.

(** ** The language table *)

Definition lang_names : gmap str str :=
  list_to_map
    [ (lit "en", lit "anglais"); (lit "la", lit "latin");
      (lit "la-new", lit "latin moderne"); (lit "la-med", lit "latin médiéval");
      (lit "grc", lit "grec ancien"); (lit "grc-koi", lit "grec koinè");
      (lit "el", lit "grec");
      (lit "fr", lit "français"); (lit "fro", lit "ancien français");
      (lit "frm", lit "moyen français");
      (lit "ang", lit "vieil anglais"); (lit "enm", lit "moyen anglais");
      (lit "de", lit "allemand"); (lit "goh", lit "vieux haut allemand");
      (lit "gmh", lit "moyen haut allemand");
      (lit "non", lit "vieux norrois"); (lit "gem-pro", lit "proto-germanique");
      (lit "ine-pro", lit "proto-indo-européen");
      (lit "it", lit "italien"); (lit "es", lit "espagnol");
      (lit "pt", lit "portugais");
      (lit "ar", lit "arabe"); (lit "he", lit "hébreu");
      (lit "sa", lit "sanskrit"); (lit "fa", lit "persan");
      (lit "nl", lit "néerlandais"); (lit "dum", lit "moyen néerlandais") ].

(** [d.get(k, default)] *)
Definition dict_get (d : gmap str str) (k : str) (dflt : str) : str :=
  default dflt (d !! k).

(** ** The template parser *)

(** The loop over [parts[1:]]: a part containing ['='] is stored under its
    key (a later assignment to the same key replaces the earlier one), any
    other part is appended to the positional parameters. *)
Fixpoint parse_params (parts : list str) (named_params : gmap str str)
    (positional_params : list str) : result (gmap str str * list str) :=
  match parts with
  | [] => Ok (named_params, positional_params)
  | part :: parts' =>
    if contains 61 part then
      match split_once 61 part with
      | [key; value] =>
        parse_params parts' (<[strip key := strip value]> named_params)
                     positional_params
      | _ => Raise ValueError
      end
    else
      parse_params parts' named_params (positional_params ++ [strip part])
  end.

(** ** The template interpreter *)

Definition name_in (names : list str) (n : str) : bool :=
  existsb (eqb_str n) names.

Definition lang_of (code : str) : str := dict_get lang_names code code.

(** The body of [parse_wiki_template] after the parameters are parsed.  A
    branch whose inner condition fails falls through to the final
    [return '']. *)
Definition interpret (template_name : str) (named_params : gmap str str)
    (positional_params : list str) : result str :=
  let n := length positional_params in
  if eqb_str template_name (lit "étyl") then
    if nonempty positional_params then
      lang_code ← getitem positional_params 0;
      let lang := lang_of lang_code in
      let word := dict_get named_params (lit "mot") [] in
      word ←
        (if negb (nonempty word) && (3 <=? n)%nat
         then getitem positional_params 2 else Ok word);
      let tr := dict_get named_params (lit "tr") [] in
      if nonempty word then
        if nonempty tr then
          Ok (lit "*" ++ lang ++ lit "* *" ++ word ++ lit "* (" ++ tr ++ lit ")")
        else Ok (lit "*" ++ lang ++ lit "* *" ++ word ++ lit "*")
      else Ok (lit "*" ++ lang ++ lit "*")
    else Ok []
  else if eqb_str template_name (lit "polytonique") then
    if nonempty positional_params then
      w0 ← getitem positional_params 0;
      let word := strip_chars is_bracket w0 in
      tr ← (if (2 <=? n)%nat then getitem positional_params 1 else Ok []);
      meaning ←
        (if (3 <=? n)%nat then getitem positional_params 2 else Ok []);
      if nonempty meaning then
        Ok (lit "*" ++ word ++ lit "* (" ++ tr ++ lit ", « " ++ meaning ++ lit " »)")
      else if nonempty tr then
        Ok (lit "*" ++ word ++ lit "* (" ++ tr ++ lit ")")
      else Ok (lit "*" ++ word ++ lit "*")
    else Ok []
  else if eqb_str template_name (lit "date") then Ok []
  else if name_in [lit "R"; lit "réf"] template_name then Ok []
  else if name_in [lit "bor"; lit "borrowed"] template_name then
    if (3 <=? n)%nat then
      code ← getitem positional_params 1;
      let lang := lang_of code in
      word ← getitem positional_params 2;
      Ok (lit "*" ++ lang ++ lit "* *" ++ word ++ lit "*")
    else if (2 <=? n)%nat then
      code ← getitem positional_params 1;
      let lang := lang_of code in
      Ok (lit "*" ++ lang ++ lit "*")
    else Ok []
  else if name_in [lit "der"; lit "derived"] template_name then
    if (3 <=? n)%nat then
      code ← getitem positional_params 1;
      let lang := lang_of code in
      word ← getitem positional_params 2;
      Ok (lit "*" ++ lang ++ lit "* *" ++ word ++ lit "*")
    else if (2 <=? n)%nat then
      code ← getitem positional_params 1;
      let lang := lang_of code in
      Ok (lit "*" ++ lang ++ lit "*")
    else Ok []
  else if name_in [lit "inh"; lit "inherited"] template_name then
    if (3 <=? n)%nat then
      code ← getitem positional_params 1;
      let lang := lang_of code in
      word ← getitem positional_params 2;
      Ok (lit "*" ++ lang ++ lit "* *" ++ word ++ lit "*")
    else Ok []
  else if name_in [lit "m"; lit "mention"; lit "l"; lit "link"; lit "lien"]
                  template_name then
    if (2 <=? n)%nat then
      code ← getitem positional_params 0;
      let lang := lang_of code in
      word ← getitem positional_params 1;
      gloss ←
        (if (4 <=? n)%nat then
           g ← getitem positional_params 3;
           if nonempty g then getitem positional_params 3 else Ok []
         else Ok []);
      if nonempty gloss then
        Ok (lit "*" ++ lang ++ lit "* *" ++ word ++ lit "* « " ++ gloss ++ lit " »")
      else Ok (lit "*" ++ lang ++ lit "* *" ++ word ++ lit "*")
    else Ok []
  else if name_in [lit "cog"; lit "cognate"] template_name then
    if (2 <=? n)%nat then
      code ← getitem positional_params 0;
      let lang := lang_of code in
      word ← getitem positional_params 1;
      Ok (lit "*" ++ lang ++ lit "* *" ++ word ++ lit "*")
    else Ok []
  else Ok [].

Definition parse_wiki_template (template : str) : result str :=
  let template := strip_chars is_brace template in
  let parts := split_on 124 template in
  if negb (nonempty parts) then Ok []
  else
    p0 ← getitem parts 0;
    let template_name := strip p0 in
    '(named_params, positional_params) ← parse_params (drop 1 parts) ∅ [];
    interpret template_name named_params positional_params.

(** ** Regular-expression substitution

    [re.sub] scans the text from left to right; where the pattern matches it
    emits the replacement and resumes after the match, elsewhere it copies
    one character.  Every pattern of this program consumes at least one
    character, so no empty match arises.  A matcher receives the character
    before the current position ([None] at the start of the text, which is
    what [^] and [\b] inspect) and the text from the current position on. *)

Definition matcher := option char -> str -> option (nat * str).

(** [skip] counts the characters of the current match still to be consumed. *)
Fixpoint sub_from (m : matcher) (skip : nat) (prev : option char) (s : str)
    : str :=
  match s with
  | [] => []
  | c :: s' =>
    match skip with
    | S k => sub_from m k (Some c) s'
    | O =>
      match m prev s with
      | Some (n, r) => r ++ sub_from m (pred n) (Some c) s'
      | None => c :: sub_from m O (Some c) s'
      end
    end
  end.

(** [re.sub(pattern, replacement, s)] *)
Definition re_sub (m : matcher) (s : str) : str := sub_from m O None s.

(** [re.sub(pattern, function, s)]: the replacement is computed from the
    matched text by a function that may raise. *)
Fixpoint sub_fn_from (m : str -> option nat) (f : str -> result str)
    (skip : nat) (s : str) : result str :=
  match s with
  | [] => Ok []
  | c :: s' =>
    match skip with
    | S k => sub_fn_from m f k s'
    | O =>
      match m s with
      | Some n =>
        r ← f (take n s);
        rest ← sub_fn_from m f (pred n) s';
        Ok (r ++ rest)
      | None =>
        rest ← sub_fn_from m f O s';
        Ok (c :: rest)
      end
    end
  end.

Definition re_sub_fn (m : str -> option nat) (f : str -> result str)
    (s : str) : result str := sub_fn_from m f O s.

(** The longest prefix of characters satisfying [p], and what follows it:
    a greedy starred character class. *)
Fixpoint span (p : char -> bool) (s : str) : str * str :=
  match s with
  | [] => ([], [])
  | c :: s' =>
    if p c then let '(a, r) := span p s' in (c :: a, r) else ([], s)
  end.

(** A literal at the head of the text. *)
Fixpoint strip_prefix (pre s : str) : option str :=
  match pre, s with
  | [], _ => Some s
  | x :: pre', y :: s' => if x =? y then strip_prefix pre' s' else None
  | _ :: _, [] => None
  end.

Definition not_brace (c : char) : bool := negb (is_brace c).
Definition not_gt (c : char) : bool := negb (c =? 62).

(** ** The fixpoint resolver *)

(** The pattern: "\{\{", a captured run "[^{}]*", then "\}\}". *)
Definition re_template (s : str) : option nat :=
  match s with
  | 123 :: 123 :: t =>
    let '(w, r) := span not_brace t in
    match r with
    | 125 :: 125 :: _ => Some (4 + length w)%nat
    | _ => None
    end
  | _ => None
  end.

(** [replace_template] *)
Definition replace_template (matched : str) : result str :=
  parse_wiki_template matched.

(** One pass of the loop body. *)
Definition resolve_pass (etymology : str) : result str :=
  re_sub_fn re_template replace_template etymology.

(** [prev = None; while prev != etymology: prev = etymology; etymology = ...]
    The first test always succeeds ([None] is no string), so the body runs
    at least once.  The result carries the number of passes made. *)
Fixpoint resolve_loop (fuel : nat) (etymology : str)
    : option (result (str * nat)) :=
  match fuel with
  | O => None
  | S fuel' =>
    let prev := etymology in
    match resolve_pass etymology with
    | Raise e => Some (Raise e)
    | Ok etymology =>
      if eqb_str prev etymology then Some (Ok (etymology, 1%nat))
      else
        match resolve_loop fuel' etymology with
        | Some (Ok (t, n)) => Some (Ok (t, S n))
        | r => r
        end
    end
  end.

(** ** The link flattener *)

Definition not_rbracket (c : char) : bool := negb (c =? 93).
Definition not_bar_rbracket (c : char) : bool := negb ((c =? 124) || (c =? 93)).

(** The tail "([^\]]+)\]\]" of the link pattern from the current position:
    the length consumed and the group. *)
Definition link_display (t : str) : option (nat * str) :=
  let '(d, r) := span not_rbracket t in
  match d, r with
  | _ :: _, 93 :: 93 :: _ => Some ((length d + 2)%nat, d)
  | _, _ => None
  end.

(** The pattern "\[\[([^|\]]+\|)?([^\]]+)\]\]", replaced by its second group.
    The optional group is
    tried first; when the match cannot be completed with it, the expression is
    retried without it. *)
Definition re_link : matcher := fun _ s =>
  match s with
  | 91 :: 91 :: t =>
    let without := '(n, d) ← link_display t; Some ((2 + n)%nat, d) in
    let '(a, r) := span not_bar_rbracket t in
    match a, r with
    | _ :: _, 124 :: t' =>
      match link_display t' with
      | Some (n, d) => Some ((2 + length a + 1 + n)%nat, d)
      | None => without
      end
    | _, _ => without
    end
  | _ => None
  end.

Definition flatten_links (etymology : str) : str := re_sub re_link etymology.

(** ** The markup scrubber *)

Definition is_ascii_lower (c : char) : bool := (97 <=? c) && (c <=? 122).
Definition is_ascii_alnum (c : char) : bool :=
  ((48 <=? c) && (c <=? 57)) || ((65 <=? c) && (c <=? 90)) || is_ascii_lower c.

Section Scrubber.

(** The Unicode character database outside ASCII is not part of the
    program: upper-casing of a character ([str.upper], which may yield
    several characters) and the alphanumeric class behind the word
    characters of the regular-expression engine. *)
Variable unicode_upper : char -> str.
Variable unicode_isalnum : char -> bool.

(** [c.upper()] for a one-character string *)
Definition py_upper (c : char) : str :=
  if c <? 128 then [if is_ascii_lower c then c - 32 else c]
  else unicode_upper c.

(** The class "\w" *)
Definition py_isword (c : char) : bool :=
  if c <? 128 then is_ascii_alnum c || (c =? 95) else unicode_isalnum c.

(** "\b": exactly one side is a word character; the ends of the text count
    as non-word. *)
Definition word_boundary (before after : option char) : bool :=
  xorb (from_option py_isword false before) (from_option py_isword false after).

(** Two or three apostrophes (bold and italic markers), removed *)
Definition re_quotes : matcher := fun _ s =>
  match s with
  | 39 :: 39 :: 39 :: _ => Some (3%nat, [])
  | 39 :: 39 :: _ => Some (2%nat, [])
  | _ => None
  end.

(** The lazy ".*?" followed by the literal closing tag: the number of
    characters up to the first closing tag, none of them a newline. *)
Fixpoint until_close_ref (s : str) : option nat :=
  match strip_prefix (lit "</ref>") s with
  | Some _ => Some O
  | None =>
    match s with
    | [] => None
    | c :: s' => if c =? 10 then None else S <$> until_close_ref s'
    end
  end.

(** "<ref[^>]*>.*?</ref>" removed *)
Definition re_ref_span : matcher := fun _ s =>
  t ← strip_prefix (lit "<ref") s;
  let '(a, r) := span not_gt t in
  match r with
  | 62 :: body =>
    k ← until_close_ref body;
    Some ((4 + length a + 1 + k + 6)%nat, [])
  | _ => None
  end.

(** "<ref[^>]*/>" removed.  The class excludes the closing bracket, so the
    match ends at the first one after the tag name, and the slash is the
    character just before it. *)
Definition re_ref_self : matcher := fun _ s =>
  t ← strip_prefix (lit "<ref") s;
  let '(a, r) := span not_gt t in
  match last a, r with
  | Some 47, 62 :: _ => Some ((4 + length a + 1)%nat, [])
  | _, _ => None
  end.

(** "<[^>]+>" removed *)
Definition re_tag : matcher := fun _ s =>
  match s with
  | 60 :: t =>
    let '(a, r) := span not_gt t in
    match a, r with
    | _ :: _, 62 :: _ => Some ((1 + length a + 1)%nat, [])
    | _, _ => None
    end
  | _ => None
  end.

(** "\bCODE\b" replaced by a phrase *)
Definition re_code (code phrase : str) : matcher := fun prev s =>
  r ← strip_prefix code s;
  if word_boundary prev (head s) && word_boundary (last code) (head r)
  then Some (length code, phrase) else None.

(** "Displaced native\s*\.?" removed *)
Definition re_displaced : matcher := fun _ s =>
  t ← strip_prefix (lit "Displaced native") s;
  let '(ws, r) := span py_isspace t in
  match r with
  | 46 :: _ => Some ((16 + length ws + 1)%nat, [])
  | _ => Some ((16 + length ws)%nat, [])
  end.

(** "\s+" replaced by one space *)
Definition re_spaces : matcher := fun _ s =>
  let '(ws, _) := span py_isspace s in
  match ws with
  | _ :: _ => Some (length ws, [32])
  | [] => None
  end.

(** "^:\s*" removed *)
Definition re_leading_colon : matcher := fun prev s =>
  match prev, s with
  | None, 58 :: t => let '(ws, _) := span py_isspace t in Some (S (length ws), [])
  | _, _ => None
  end.

(** "\(\s*\)" removed *)
Definition re_empty_parens : matcher := fun _ s =>
  match s with
  | 40 :: t =>
    let '(ws, r) := span py_isspace t in
    match r with
    | 41 :: _ => Some ((length ws + 2)%nat, [])
    | _ => None
    end
  | _ => None
  end.

(** ",\s*," replaced by one comma *)
Definition re_double_comma : matcher := fun _ s =>
  match s with
  | 44 :: t =>
    let '(ws, r) := span py_isspace t in
    match r with
    | 44 :: _ => Some ((length ws + 2)%nat, [44])
    | _ => None
    end
  | _ => None
  end.

(** "\s*[,;]\s*$" removed.  Both runs of whitespace are greedy and are
    followed by a character outside the class, so only the longest runs
    can match; the final run then takes a trailing newline with it, and
    the end anchor holds at the very end of the text only. *)
Definition re_trailing : matcher := fun _ s =>
  let '(ws, r) := span py_isspace s in
  match r with
  | c :: t =>
    if (c =? 44) || (c =? 59) then
      let '(ws', r') := span py_isspace t in
      match r' with
      | [] => Some ((length ws + 1 + length ws')%nat, [])
      | _ :: _ => None
      end
    else None
  | [] => None
  end.

(** [etymology[0].upper() + etymology[1:]] when the text is not empty *)
Definition capitalize (etymology : str) : str :=
  match etymology with
  | [] => []
  | c :: rest => py_upper c ++ rest
  end.

(** The rules applied after link flattening, in the order of the source. *)
Definition scrub (etymology : str) : str :=
  let etymology := re_sub re_quotes etymology in
  let etymology := re_sub re_ref_span etymology in
  let etymology := re_sub re_ref_self etymology in
  let etymology := re_sub re_tag etymology in
  let etymology := re_sub (re_code (lit "la-lat") (lit "Late Latin")) etymology in
  let etymology := re_sub (re_code (lit "la-med") (lit "Medieval Latin")) etymology in
  let etymology := re_sub (re_code (lit "la-new") (lit "New Latin")) etymology in
  let etymology := re_sub re_displaced etymology in
  let etymology := strip (re_sub re_spaces etymology) in
  let etymology := re_sub re_leading_colon etymology in
  let etymology := re_sub re_empty_parens etymology in
  let etymology := re_sub re_double_comma etymology in
  let etymology := strip (re_sub re_spaces etymology) in
  let etymology := re_sub re_trailing etymology in
  capitalize etymology.

(** The quality gate: [if etymology and len(etymology) > 10]. *)
Definition quality_gate (etymology : str) : option str :=
  if nonempty etymology && (10 <? length etymology)%nat
  then Some etymology else None.

End Scrubber.

(** Tables used where a concrete run is shown: no case mapping and no
    alphanumerics outside ASCII. *)
Definition ascii_only_upper (c : char) : str := [c].
Definition ascii_only_isalnum (_ : char) : bool := false.

(** ** The section extractor and the pipeline *)

(** [re.search]: the match at the leftmost position where there is one. *)
Fixpoint re_search {A} (m : str -> option A) (s : str) : option A :=
  match m s with
  | Some x => Some x
  | None =>
    match s with
    | [] => None
    | _ :: s' => re_search m s'
    end
  end.

(** The lazy "(.*?)" (any character, newlines included) before the lookahead
    "(?=\n===)": the text up to the first newline followed by a heading
    marker. *)
Fixpoint until_next_heading (s : str) : option str :=
  match strip_prefix (10 :: lit "===") s with
  | Some _ => Some []
  | None =>
    match s with
    | [] => None
    | c :: s' => cons c <$> until_next_heading s'
    end
  end.

(** The number of passes the loop is given: one more than the length of the
    text, which is always enough (see [resolve_fuel_enough]). *)
Definition resolve_fuel (etymology : str) : nat := S (length etymology).

Section Pipeline.

Variable unicode_upper : char -> str.
Variable unicode_isalnum : char -> bool.

(** The comparison of a letter of the pattern with a character of the
    text under [re.IGNORECASE], which belongs to the regular-expression
    engine. *)
Variable ignorecase_eq : char -> char -> bool.

Fixpoint strip_prefix_ci (pre s : str) : option str :=
  match pre, s with
  | [], _ => Some s
  | x :: pre', y :: s' =>
    if ignorecase_eq x y then strip_prefix_ci pre' s' else None
  | _ :: _, [] => None
  end.

(** "\{\{S\|étymologie\}\}" *)
Definition templated_heading (t : str) : option str :=
  t ← strip_prefix (lit "{{") t;
  t ← strip_prefix_ci (lit "S") t;
  t ← strip_prefix (lit "|") t;
  t ← strip_prefix_ci (lit "étymologie") t;
  strip_prefix (lit "}}") t.

(** "Étymologie" *)
Definition plain_heading (t : str) : option str :=
  strip_prefix_ci (lit "Étymologie") t.

(** "===\s*" heading "\s*===\n(.*?)(?=\n===)" at the current position;
    the result is the captured group. *)
Definition re_section (heading : str -> option str) (s : str) : option str :=
  t ← strip_prefix (lit "===") s;
  t ← heading (span py_isspace t).2;
  t ← strip_prefix (lit "===") (span py_isspace t).2;
  t ← strip_prefix [10] t;
  until_next_heading t.

(** The two searches for the etymology section. *)
Definition find_section (wikitext : str) : option str :=
  match re_search (re_section templated_heading) wikitext with
  | Some g => Some g
  | None => re_search (re_section plain_heading) wikitext
  end.

(** The clean-up applied to the resolved text, up to the gate. *)
Definition scrubbed (etymology : str) : str :=
  scrub unicode_upper unicode_isalnum (flatten_links etymology).

(** [fetch_etymology_parse_api] from the wikitext of the response on.  The
    Python result is [None] or a string; an exception raised on the way is
    caught and gives [None] too.  The outer [option] is [None] only if the
    loop is not finished within [resolve_fuel] passes. *)
Definition fetch_etymology_parse_api (wikitext : str)
    : option (option str) :=
  match find_section wikitext with
  | Some group1 =>
    let etymology := strip group1 in
    match resolve_loop (resolve_fuel etymology) etymology with
    | None => None
    | Some (Raise _) => Some None
    | Some (Ok (etymology, _)) => Some (quality_gate (scrubbed etymology))
    end
  | None => Some None
  end.

End Pipeline.

(** The engine's comparison restricted to what is certain: equal characters,
    and ASCII letters up to case. *)
Definition ascii_ignorecase_eq (x y : char) : bool :=
  let fold c := if (65 <=? c) && (c <=? 90) then c + 32 else c in
  fold x =? fold y.

(** ** The prose formatter *)

(** [s.replace(old, new)] for a non-empty [old]: every occurrence, from left
    to right and without overlap. *)
Definition str_replace (old new : str) (s : str) : str :=
  re_sub (fun _ t =>
            match strip_prefix old t with
            | Some _ => Some (length old, new)
            | None => None
            end) s.

(** [clean_html] *)
Definition clean_html (text : str) : str :=
  let text := re_sub re_tag text in
  let text := str_replace (lit "&amp;") (lit "&") text in
  let text := str_replace (lit "&lt;") (lit "<") text in
  let text := str_replace (lit "&gt;") (lit ">") text in
  let text := str_replace (lit "&quot;") [34] text in
  let text := str_replace (lit "&#39;") (lit "'") text in
  strip (re_sub re_spaces text).

(** The list [languages] of [format_etymology]. *)
Definition languages : list str :=
  [ lit "Latin"; lit "Greek"; lit "French"; lit "Old English";
    lit "Middle English"; lit "Old French"; lit "Proto-Germanic";
    lit "German"; lit "Italian"; lit "Spanish"; lit "Sanskrit";
    lit "Arabic"; lit "Hebrew"; lit "Old Norse"; lit "Dutch" ].

(** The class "[a-zA-Z]" *)
Definition is_ascii_letter (c : char) : bool :=
  ((65 <=? c) && (c <=? 90)) || is_ascii_lower c.

Section Formatter.

Variable unicode_isalnum : char -> bool.

(** "\b(LANG)\s+([a-zA-Z]+)\b" replaced by "*\1* *\2*".  The runs of
    whitespace and of letters are followed by a character outside their
    class, so only the longest runs can match. *)
Definition re_language (lang : str) : matcher := fun prev s =>
  t ← strip_prefix lang s;
  if word_boundary unicode_isalnum prev (head s) then
    let '(ws, t1) := span py_isspace t in
    let '(w, t2) := span is_ascii_letter t1 in
    match ws, w with
    | _ :: _, _ :: _ =>
      if word_boundary unicode_isalnum (last w) (head t2)
      then Some ((length lang + length ws + length w)%nat,
                 lit "*" ++ lang ++ lit "* *" ++ w ++ lit "*")
      else None
    | _, _ => None
    end
  else None.

(** [format_etymology]: the loop over [languages] on the cleaned text. *)
Definition format_etymology (raw_etymology : str) : str :=
  fold_left (fun text lang => re_sub (re_language lang) text)
            languages (clean_html raw_etymology).

End Formatter.

(** ** The old origin section *)

(** The lookahead "(?=\n\n|\n\*\*|$)": a blank line, a line that starts
    bold, or the end of the text (also just before a final newline). *)
Definition origin_end (t : str) : bool :=
  match t with
  | [] => true
  | [10] => true
  | 10 :: 10 :: _ => true
  | 10 :: 42 :: 42 :: _ => true
  | _ => false
  end.

(** The lazy ".*?" (any character) before the lookahead: the number of
    characters up to the first position where the lookahead holds. *)
Fixpoint until_origin_end (t : str) : nat :=
  if origin_end t then O
  else match t with
       | [] => O
       | _ :: t' => S (until_origin_end t')
       end.

(** "\n*\*\*Origin:\*\*.*?(?=\n\n|\n\*\*|$)" removed *)
Definition re_origin : matcher := fun _ s =>
  let '(nl, t) := span (N.eqb 10) s in
  t1 ← strip_prefix (lit "**Origin:**") t;
  Some ((length nl + 11 + until_origin_end t1)%nat, []).

(** [remove_origin_from_body] *)
Definition remove_origin_from_body (body : str) : str :=
  strip (re_sub re_origin body).

(** ** Front matter *)

(** The lazy "(.*?)" before a literal: the text up to the first occurrence
    of the literal, and the text after that occurrence. *)
Fixpoint split_at_first (pat s : str) : option (str * str) :=
  match strip_prefix pat s with
  | Some rest => Some ([], rest)
  | None =>
    match s with
    | [] => None
    | c :: s' => '(a, rest) ← split_at_first pat s'; Some (c :: a, rest)
    end
  end.

(** [re.match], with [re.DOTALL], of "^---\n(.*?)\n---\n" followed by a
    greedy group of any characters and the end anchor: the two groups.  The
    second group takes all that is left. *)
Definition re_front_matter (content : str) : option (str * str) :=
  t ← strip_prefix (lit "---" ++ [10]) content;
  split_at_first (10 :: lit "---" ++ [10]) t.

Section FrontMatter.

(** The YAML library: the values it loads, how it loads a document (it may
    raise), how it dumps a mapping, which values Python takes as false, and
    the empty mapping. *)
Variable yaml : Type.
Variable safe_load : str -> result yaml.
Variable dump : yaml -> str.
Variable falsy : yaml -> bool.
Variable empty_dict : yaml.

(** [parse_front_matter] *)
Definition parse_front_matter (content : str) : result (yaml * str) :=
  match re_front_matter content with
  | None => Ok (empty_dict, content)
  | Some (group1, group2) =>
    loaded ← safe_load group1;
    let front_matter := if falsy loaded then empty_dict else loaded in
    let body := group2 in
    Ok (front_matter, body)
  end.

(** [serialize_front_matter] *)
Definition serialize_front_matter (front_matter : yaml) (body : str) : str :=
  let yaml_str := dump front_matter in
  lit "---" ++ [10] ++ yaml_str ++ lit "---" ++ [10] ++ body.

End FrontMatter.

(** ** Fetching and batch processing *)

Section Fetch.

Variable unicode_upper : char -> str.
Variable unicode_isalnum : char -> bool.
Variable ignorecase_eq : char -> char -> bool.

(** [fetch_etymology], from what the two sources give: the result of
    [fetch_etymology_wiktionary], and the wikitext of the parse API ([None]
    when the request fails or the reply is an error, which makes
    [fetch_etymology_parse_api] return [None]). *)
Definition fetch_etymology (wiktionary : option str) (parse_reply : option str)
    : option (option str) :=
  let fallback :=
    match parse_reply with
    | Some wikitext =>
      fetch_etymology_parse_api unicode_upper unicode_isalnum ignorecase_eq
        wikitext
    | None => Some None
    end in
  match wiktionary with
  | Some result => if nonempty result then Some (Some result) else fallback
  | None => fallback
  end.

End Fetch.

(** What [process_all] does besides counting. *)
Inductive event (file : Type) :=
| Processed (f : file)
| Slept.
Arguments Processed {file} f.
Arguments Slept {file}.

Section ProcessAll.

Variable file : Type.

(** [process_word_file] with the chosen [force], as the answer it gives for
    each file. *)
Variable process_word_file : file -> bool.

(** The loop of [process_all] from index [i] on; [n] is [len(files)]. *)
Fixpoint process_from (n : Z) (i : Z) (files : list file) (updated_count : nat)
    : nat * list (event file) :=
  match files with
  | [] => (updated_count, [])
  | file_path :: files' =>
    let updated_count :=
      if process_word_file file_path then S updated_count else updated_count in
    let sleep := if (i <? n - 1)%Z then [Slept] else [] in
    let '(count, trace) := process_from n (i + 1)%Z files' updated_count in
    (count, Processed file_path :: sleep ++ trace)
  end.

(** [process_all]: the count it returns and the trace of what it did. *)
Definition process_all (files : list file) : nat * list (event file) :=
  process_from (Z.of_nat (length files)) 0%Z files O.

End ProcessAll.

(** ** See-also links *)

(** [re.finditer]: the matches from left to right, without overlap; a
    matcher gives the length of the match and what is kept of it. *)
Fixpoint find_from {A} (m : str -> option (nat * A)) (skip : nat) (s : str)
    : list A :=
  match s with
  | [] => []
  | _ :: s' =>
    match skip with
    | S k => find_from m k s'
    | O =>
      match m s with
      | Some (n, x) => x :: find_from m (pred n) s'
      | None => find_from m O s'
      end
    end
  end.

Definition not_rparen (c : char) : bool := negb (c =? 41).

(** "\[([^\]]+)\]\(([^)]+)\)": the two groups. *)
Definition re_markdown_link (s : str) : option (nat * (str * str)) :=
  match s with
  | 91 :: t =>
    let '(text, r) := span not_rbracket t in
    match text, r with
    | _ :: _, 93 :: 40 :: t' =>
      let '(url, r') := span not_rparen t' in
      match url, r' with
      | _ :: _, 41 :: _ => Some ((length text + length url + 4)%nat, (text, url))
      | _, _ => None
      end
    | _, _ => None
    end
  | _ => None
  end.

(** The end "(?:\n\n|\n*$)" of the see-also pattern: a blank line, which is
    consumed, or nothing but newlines up to the end of the text. *)
Definition see_also_end (t : str) : option nat :=
  match t with
  | 10 :: 10 :: _ => Some 2%nat
  | _ => if forallb (N.eqb 10) t then Some (length t) else None
  end.

(** The lazy group and the end: the group, and the length of both. *)
Fixpoint see_also_group (t : str) : option (str * nat) :=
  match see_also_end t with
  | Some k => Some ([], k)
  | None =>
    match t with
    | [] => None
    | c :: t' => '(g, n) ← see_also_group t'; Some (c :: g, S n)
    end
  end.

Section SeeAlso.

Variable ignorecase_eq : char -> char -> bool.

(** "\*\*See also:\*\*\s*(.*?)(?:\n\n|\n*$)" with [re.DOTALL] and
    [re.IGNORECASE]: the length of the match and the group. *)
Definition re_see_also (s : str) : option (nat * str) :=
  t ← strip_prefix (lit "**") s;
  t ← strip_prefix_ci ignorecase_eq (lit "See") t;
  t ← strip_prefix (lit " ") t;
  t ← strip_prefix_ci ignorecase_eq (lit "also") t;
  t ← strip_prefix (lit ":**") t;
  let '(ws, t1) := span py_isspace t in
  '(g, n) ← see_also_group t1;
  Some ((13 + length ws + n)%nat, g).

(** [extract_see_also]: the links as pairs of text and url, and the body. *)
Definition extract_see_also (body : str) : list (str * str) * str :=
  match re_search re_see_also body with
  | None => ([], body)
  | Some (_, group1) =>
    let links_text := strip group1 in
    let links := find_from re_markdown_link O links_text in
    let cleaned_body :=
      strip (re_sub (fun _ s => '(n, _) ← re_see_also s; Some (n, [])) body) in
    (links, cleaned_body)
  end.

End SeeAlso.

(** * Notions used to state and prove the properties *)

(** The fragment the origin template stands for, from the display name of
    the language, the foreign word and the transliteration. *)
Definition origin_fragment (lang word tr : str) : str :=
  if nonempty word then
    if nonempty tr then
      lit "*" ++ lang ++ lit "* *" ++ word ++ lit "* (" ++ tr ++ lit ")"
    else lit "*" ++ lang ++ lit "* *" ++ word ++ lit "*"
  else lit "*" ++ lang ++ lit "*".

(** The foreign word: the named parameter [mot] when it is present and not
    empty, else the third positional parameter, else nothing. *)
Definition origin_word (named_params : gmap str str)
    (positional_params : list str) : str :=
  let word := dict_get named_params (lit "mot") [] in
  if nonempty word then word else default [] (positional_params !! 2%nat).

(** No brace in the text. *)
Definition brace_free (s : str) : bool := forallb not_brace s.

(** The key and value a part contributes, if it is a named parameter. *)
Definition binding_of (part : str) : option (str * str) :=
  if contains 61 part then
    match split_once 61 part with
    | [key; value] => Some (strip key, strip value)
    | _ => None
    end
  else None.

(** The value of the last part that binds the key. *)
Fixpoint last_binding (key : str) (parts : list str) : option str :=
  match parts with
  | [] => None
  | part :: parts' =>
    match last_binding key parts' with
    | Some v => Some v
    | None =>
      match binding_of part with
      | Some (k, v) => if eqb_str k key then Some v else None
      | None => None
      end
    end
  end.

(** The value of the first part that binds the key, which is what keeping
    the first occurrence would give. *)
Fixpoint first_binding (key : str) (parts : list str) : option str :=
  match parts with
  | [] => None
  | part :: parts' =>
    match binding_of part with
    | Some (k, v) => if eqb_str k key then Some v else first_binding key parts'
    | None => first_binding key parts'
    end
  end.

(** No value of the mapping holds a brace. *)
Definition values_brace_free (named_params : gmap str str) : Prop :=
  map_Forall (fun _ v => brace_free v = true) named_params.

(** The names the interpreter tests for. *)
Definition recognized_names : list str :=
  [ lit "étyl"; lit "polytonique"; lit "date"; lit "R"; lit "réf";
    lit "bor"; lit "borrowed"; lit "der"; lit "derived";
    lit "inh"; lit "inherited";
    lit "m"; lit "mention"; lit "l"; lit "link"; lit "lien";
    lit "cog"; lit "cognate" ].

(** The name the parser reads from a template. *)
Definition name_of_template (template : str) : str :=
  strip (hd [] (split_on 124 (strip_chars is_brace template))).

(** The number of braces in the text. *)
Fixpoint count_braces (s : str) : nat :=
  match s with
  | [] => 0
  | c :: s' => (if is_brace c then 1 else 0) + count_braces s'
  end.

(** A text whose templates are properly nested: characters other than
    braces, and templates that enclose such a text. *)
Inductive template_text :=
| TEnd
| TChar (c : char) (rest : template_text)
| TTemplate (body rest : template_text).

(** The text as a string. *)
Fixpoint render (t : template_text) : str :=
  match t with
  | TEnd => []
  | TChar c rest => c :: render rest
  | TTemplate body rest => [123; 123] ++ render body ++ [125; 125] ++ render rest
  end.

(** The maximum nesting depth of the templates. *)
Fixpoint nesting_depth (t : template_text) : nat :=
  match t with
  | TEnd => 0
  | TChar _ rest => nesting_depth rest
  | TTemplate body rest => Nat.max (S (nesting_depth body)) (nesting_depth rest)
  end.

(** The characters of the text are no braces. *)
Fixpoint plain_chars (t : template_text) : bool :=
  match t with
  | TEnd => true
  | TChar c rest => not_brace c && plain_chars rest
  | TTemplate body rest => plain_chars body && plain_chars rest
  end.

(** Plain characters put in front of a text. *)
Fixpoint chars (s : str) (rest : template_text) : template_text :=
  match s with
  | [] => rest
  | c :: s' => TChar c (chars s' rest)
  end.

(** The first brace of a text, if it has one. *)
Definition first_brace (s : str) : option char := head (dropwhile not_brace s).

(** The character before the current position once [a] is consumed. *)
Definition prev_after (prev : option char) (a : str) : option char :=
  match last a with
  | Some c => Some c
  | None => prev
  end.

(** [pat in s] for a non-empty pattern *)
Fixpoint occurs (pat s : str) : bool :=
  match strip_prefix pat s with
  | Some _ => true
  | None =>
    match s with
    | [] => false
    | _ :: s' => occurs pat s'
    end
  end.

(** The first, or the last, character exists and satisfies [p]. *)
Definition head_is (p : char -> bool) (s : str) : bool :=
  from_option p false (head s).
Definition last_is (p : char -> bool) (s : str) : bool :=
  from_option p false (last s).

(** A comma or a semicolon. *)
Definition is_separator (c : char) : bool := (c =? 44) || (c =? 59).

(** No whitespace other than the plain space. *)
Definition plain_space (c : char) : bool := negb (py_isspace c) || (c =? 32).

(** A matcher that finds nothing at any position of the text. *)
Fixpoint quiet (m : matcher) (prev : option char) (s : str) : Prop :=
  match s with
  | [] => True
  | c :: s' => m prev s = None /\ quiet m (Some c) s'
  end.

(** A text that holds nothing for the rules to rewrite: no doubled
    apostrophe, no opening angle bracket, none of the three language
    codes, no displaced-native notice, single plain spaces inside only,
    no leading colon, no empty parentheses, no doubled comma, no comma or
    semicolon at the end, and a first character that is its own upper
    case. *)
Definition clean (unicode_upper : char -> str) (s : str) : bool :=
  negb (occurs (lit "''") s) &&
  negb (contains 60 s) &&
  negb (occurs (lit "la-lat") s) &&
  negb (occurs (lit "la-med") s) &&
  negb (occurs (lit "la-new") s) &&
  negb (occurs (lit "Displaced native") s) &&
  forallb plain_space s &&
  negb (occurs (lit "  ") s) &&
  negb (head_is py_isspace s) &&
  negb (last_is py_isspace s) &&
  negb (head_is (N.eqb 58) s) &&
  negb (occurs (lit "()") s) &&
  negb (occurs (lit "( )") s) &&
  negb (occurs (lit ",,") s) &&
  negb (occurs (lit ", ,") s) &&
  negb (last_is is_separator s) &&
  eqb_str (capitalize unicode_upper s) s.

(** What the rules on parentheses and commas need of a text. *)
Definition spaced (s : str) : Prop :=
  forallb plain_space s = true /\ occurs (lit "  ") s = false.

(** The number of open braces after one more character: an opening brace
    opens one, a closing brace closes one if any is open. *)
Definition step_depth (cur : nat) (c : char) : nat :=
  if c =? 123 then S cur else if c =? 125 then Init.Nat.pred cur else cur.

(** The maximum nesting depth of the braces: the largest number of braces
    open at once. *)
Fixpoint brace_depth_from (cur : nat) (s : str) : nat :=
  match s with
  | [] => cur
  | c :: s' => Nat.max cur (brace_depth_from (step_depth cur c) s')
  end.

Definition brace_depth (s : str) : nat := brace_depth_from 0 s.

(** The deepest level at which the scan of one pass finds an innermost
    template (0 if it finds none); [skip] is as in [sub_fn_from]. *)
Fixpoint match_depth_from (skip cur : nat) (s : str) : nat :=
  match s with
  | [] => 0
  | c :: s' =>
    match skip with
    | S k => match_depth_from k (step_depth cur c) s'
    | O =>
      match re_template s with
      | Some n =>
        Nat.max (cur + 2) (match_depth_from (Init.Nat.pred n) (step_depth cur c) s')
      | None => match_depth_from 0 (step_depth cur c) s'
      end
    end
  end.

(** A run of characters other than braces and of innermost templates; the
    flag tells whether it holds a template. *)
Inductive flat : bool -> str -> Prop :=
| flat_nil : flat false []
| flat_char c s m : not_brace c = true -> flat m s -> flat m (c :: s)
| flat_template w s m :
    brace_free w = true -> flat m s ->
    flat true ([123; 123] ++ w ++ [125; 125] ++ s).

(** Whitespace in normal form: no whitespace other than single plain
    spaces, and none at either end. *)
Definition normalized (s : str) : bool :=
  forallb plain_space s && negb (occurs (lit "  ") s) &&
  negb (head_is py_isspace s) && negb (last_is py_isspace s).

(** The text is empty or starts with a newline. *)
Definition newline_or_end (s : str) : bool :=
  match s with
  | [] => true
  | c :: _ => c =? 10
  end.

(** The files processed one after the other, with a pause between two of
    them. *)
Fixpoint paced {file : Type} (files : list file) : list (event file) :=
  match files with
  | [] => []
  | f :: files' =>
    Processed f :: match files' with
                   | [] => []
                   | _ :: _ => Slept :: paced files'
                   end
  end.

(** A character that is no whitespace. *)
Definition no_space (c : char) : bool := negb (py_isspace c).

(** What the upper-casing of the Unicode database is taken to do with a
    character that is no whitespace: it yields at least one character, and
    no whitespace. *)
Definition upper_keeps_text (unicode_upper : char -> str) : Prop :=
  forall c, py_isspace c = false ->
    unicode_upper c <> [] /\ forallb no_space (unicode_upper c) = true.

(** The text without its asterisks. *)
Definition drop_stars (s : str) : str :=
  List.filter (fun c => negb (c =? 42)) s.

(** The text of a template invocation with the given name and parameter
    parts. *)
Definition template_of (name : str) (parts : list str) : str :=
  lit "{{" ++ name ++ concat (map (cons 124) parts) ++ lit "}}".

(** A name or a parameter part that holds neither a brace nor a bar. *)
Definition plain_part (s : str) : bool := brace_free s && negb (contains 124 s).

(** Whitespace put before and after a text. *)
Definition pad (around : str * str) (s : str) : str := around.1 ++ s ++ around.2.
Definition blank (around : str * str) : bool :=
  forallb py_isspace around.1 && forallb py_isspace around.2.

(** A link as the dictionary writes it, and a line of links separated by
    commas. *)
Definition markdown_link (l : str * str) : str :=
  [91] ++ l.1 ++ [93; 40] ++ l.2 ++ [41].

Fixpoint links_line (links : list (str * str)) : str :=
  match links with
  | [] => []
  | l :: links' =>
    markdown_link l ++ match links' with
                       | [] => []
                       | _ :: _ => lit ", " ++ links_line links'
                       end
  end.

(** A link whose text and url are not empty and on one line, the text
    without a closing bracket and the url without a closing parenthesis. *)
Definition link_ok (l : str * str) : bool :=
  nonempty l.1 && negb (contains 93 l.1) && negb (contains 10 l.1) &&
  nonempty l.2 && negb (contains 41 l.2) && negb (contains 10 l.2).

(** * Properties *)

Arguments lit : simpl never.

(** ** The origin template *)

(** C6: the origin template looks its first positional parameter up in the
    language table, takes the word from [mot] or else from the third
    positional parameter, and appends the transliteration [tr] in
    parentheses; the two examples of the specification evaluate as stated. *)
Theorem origin_template_fragment :
  (forall named_params code rest,
     interpret (lit "étyl") named_params (code :: rest)
     = Ok (origin_fragment (dict_get lang_names code code)
             (origin_word named_params (code :: rest))
             (dict_get named_params (lit "tr") []))) /\
  parse_wiki_template (lit "{{étyl|la|fr|mot=chaos}}")
    = Ok (lit "*latin* *chaos*") /\
  parse_wiki_template (lit "{{étyl|grc|fr|mot=χάος|tr=kháos}}")
    = Ok (lit "*grec ancien* *χάος* (kháos)").
Proof.
  split; [|split; vm_compute; reflexivity].
  intros named code rest.
  unfold interpret, origin_fragment, origin_word, lang_of.
  change (eqb_str (lit "étyl") (lit "étyl")) with true. cbn [nonempty].
  change (getitem (code :: rest) 0) with (Ok code). cbn [mbind result_bind].
  destruct (nonempty (dict_get named (lit "mot") [])) eqn:Hw; cbn [negb andb].
  - cbn [mbind result_bind]. rewrite Hw.
    destruct (nonempty (dict_get named (lit "tr") [])); reflexivity.
  - destruct rest as [|a [|b rest]]; cbn [length Nat.leb getitem lookup list_lookup mbind result_bind default];
      try rewrite Hw; try reflexivity.
    unfold id.
    destruct (nonempty b), (nonempty (dict_get named (lit "tr") [])); reflexivity.
Qed.

(** ** Borrowing, derivation and inheritance templates *)

(** C7: with a language code in second position and no word in third, the
    borrowing and derivation templates give the language alone, but the
    inheritance template gives the empty fragment. *)
Theorem inherited_language_only_is_empty :
  (forall named_params first code,
     interpret (lit "bor") named_params [first; code] = Ok (lit "*" ++ lang_of code ++ lit "*") /\
     interpret (lit "borrowed") named_params [first; code] = Ok (lit "*" ++ lang_of code ++ lit "*") /\
     interpret (lit "der") named_params [first; code] = Ok (lit "*" ++ lang_of code ++ lit "*") /\
     interpret (lit "derived") named_params [first; code] = Ok (lit "*" ++ lang_of code ++ lit "*") /\
     interpret (lit "inh") named_params [first; code] = Ok [] /\
     interpret (lit "inherited") named_params [first; code] = Ok []) /\
  parse_wiki_template (lit "{{bor|fr|la}}") = Ok (lit "*latin*") /\
  parse_wiki_template (lit "{{inh|fr|la}}") = Ok [] /\
  parse_wiki_template (lit "{{inherited|fr|la}}") = Ok [].
Proof.
  split; [|repeat split; vm_compute; reflexivity].
  intros named first code. repeat split; reflexivity.
Qed.

(** ** Strings: basic facts *)

Lemma eqb_str_eq (a b : str) : eqb_str a b = true <-> a = b.
Proof.
  revert b; induction a as [|x a IH]; intros [|y b]; cbn; try easy.
  rewrite andb_true_iff, N.eqb_eq, IH. split; [intros [-> ->]|intros [= -> ->]]; easy.
Qed.

Lemma eqb_str_refl (a : str) : eqb_str a a = true.
Proof. now apply eqb_str_eq. Qed.

Lemma eqb_str_neq (a b : str) : eqb_str a b = false <-> a <> b.
Proof.
  rewrite <- eqb_str_eq. destruct (eqb_str a b); split; congruence.
Qed.

Lemma brace_free_app (a b : str) :
  brace_free (a ++ b) = brace_free a && brace_free b.
Proof. apply forallb_app. Qed.

Lemma brace_free_reverse (s : str) : brace_free (reverse s) = brace_free s.
Proof.
  induction s as [|c s IH]; [reflexivity|].
  rewrite reverse_cons, brace_free_app, IH. cbn. rewrite andb_true_r. apply andb_comm.
Qed.

Lemma brace_free_dropwhile p (s : str) :
  brace_free s = true -> brace_free (dropwhile p s) = true.
Proof.
  induction s as [|c s IH]; cbn; [easy|].
  intros [Hc Hs]%andb_true_iff. destruct (p c); [auto|].
  cbn. now rewrite Hc.
Qed.

Lemma brace_free_strip_chars p (s : str) :
  brace_free s = true -> brace_free (strip_chars p s) = true.
Proof.
  intros H. unfold strip_chars.
  rewrite brace_free_reverse. apply brace_free_dropwhile.
  rewrite brace_free_reverse. now apply brace_free_dropwhile.
Qed.

Lemma brace_free_strip (s : str) :
  brace_free s = true -> brace_free (strip s) = true.
Proof. apply brace_free_strip_chars. Qed.

Lemma split_on_nonempty sep (s : str) : split_on sep s <> [].
Proof.
  destruct s as [|c s]; cbn; [easy|].
  destruct (c =? sep); [easy|]. now destruct (split_on sep s).
Qed.

Lemma split_on_brace_free sep (s : str) :
  brace_free s = true -> Forall (fun p => brace_free p = true) (split_on sep s).
Proof.
  induction s as [|c s IH]; cbn.
  - intros _. now repeat constructor.
  - intros [Hc Hs]%andb_true_iff. specialize (IH Hs).
    destruct (c =? sep); [now constructor|].
    destruct (split_on sep s) as [|p ps]; [now repeat constructor; cbn; rewrite Hc|].
    inversion IH; subst. constructor; [cbn; rewrite Hc|]; assumption.
Qed.

Lemma split_once_contains sep (s : str) :
  contains sep s = true -> exists k v, split_once sep s = [k; v].
Proof.
  unfold contains. induction s as [|c s IH]; cbn; [easy|].
  rewrite (N.eqb_sym sep c). destruct (c =? sep); cbn; [eauto|].
  intros H. destruct (IH H) as (k & v & ->). eauto.
Qed.

Lemma split_once_brace_free sep (s : str) :
  brace_free s = true ->
  Forall (fun p => brace_free p = true) (split_once sep s).
Proof.
  induction s as [|c s IH]; cbn.
  - intros _. now repeat constructor.
  - intros [Hc Hs]%andb_true_iff. specialize (IH Hs).
    destruct (c =? sep); [now repeat constructor|].
    destruct (split_once sep s) as [|p ps]; [now repeat constructor; cbn; rewrite Hc|].
    inversion IH; subst. constructor; [cbn; rewrite Hc|]; assumption.
Qed.

(** ** The parameters of a template *)

Lemma parse_params_spec (parts : list str) :
  forall named_params positional_params,
  exists named' positional',
    parse_params parts named_params positional_params = Ok (named', positional') /\
    (forall key, named' !! key =
       match last_binding key parts with
       | Some v => Some v
       | None => named_params !! key
       end) /\
    (Forall (fun p => brace_free p = true) parts ->
     values_brace_free named_params ->
     Forall (fun p => brace_free p = true) positional_params ->
     values_brace_free named' /\
     Forall (fun p => brace_free p = true) positional').
Proof.
  induction parts as [|part parts IH]; intros named pos; cbn [parse_params last_binding].
  - exists named, pos. repeat split; auto.
  - unfold binding_of. destruct (contains 61 part) eqn:Hc.
    + destruct (split_once_contains _ _ Hc) as (k & v & Hkv). rewrite Hkv.
      destruct (IH (<[strip k:=strip v]> named) pos) as (n' & p' & -> & Hl & Hb).
      exists n', p'. split; [reflexivity|]. split.
      * intros key. rewrite Hl. destruct (last_binding key parts); [reflexivity|].
        destruct (eqb_str (strip k) key) eqn:E.
        -- apply eqb_str_eq in E as <-. apply lookup_insert_eq.
        -- apply eqb_str_neq in E. now apply lookup_insert_ne.
      * intros Hparts Hn Hp. inversion Hparts as [|? ? Hpart Hparts']; subst.
        apply Hb; auto. apply map_Forall_insert_2; auto.
        pose proof (split_once_brace_free 61 _ Hpart) as Hs. rewrite Hkv in Hs.
        inversion Hs as [|? ? _ Hs']; subst. inversion Hs'; subst.
        now apply brace_free_strip.
    + destruct (IH named (pos ++ [strip part])) as (n' & p' & -> & Hl & Hb).
      exists n', p'. split; [reflexivity|]. split.
      * intros key. rewrite Hl. now destruct (last_binding key parts).
      * intros Hparts Hn Hp. inversion Hparts; subst. apply Hb; auto.
        apply Forall_app; split; auto. constructor; auto using brace_free_strip.
Qed.

(** ** The interpreter never raises and adds no brace *)

Lemma lang_names_brace_free (code name : str) :
  lang_names !! code = Some name -> brace_free name = true.
Proof.
  intros H. unfold lang_names in H.
  apply elem_of_list_to_map_2 in H.
  repeat (apply elem_of_cons in H as [[= -> ->]|H]; [vm_compute; reflexivity|]).
  now apply elem_of_nil in H.
Qed.

Lemma lang_of_brace_free (code : str) :
  brace_free code = true -> brace_free (lang_of code) = true.
Proof.
  intros H. unfold lang_of, dict_get.
  destruct (lang_names !! code) eqn:E; cbn; [|exact H].
  eapply lang_names_brace_free, E.
Qed.

Lemma dict_get_brace_free (named_params : gmap str str) (key : str) :
  values_brace_free named_params ->
  brace_free (dict_get named_params key []) = true.
Proof.
  intros H. unfold dict_get. destruct (named_params !! key) eqn:E; cbn; [|reflexivity].
  exact (H _ _ E).
Qed.

Create HintDb braces.
#[local] Hint Resolve lang_of_brace_free dict_get_brace_free
  brace_free_strip_chars brace_free_strip : braces.

Ltac brace_free_concat :=
  repeat (rewrite brace_free_app; apply andb_true_intro; split);
  first [ reflexivity | solve [auto with braces] ].

Lemma interpret_total (template_name : str) (named_params : gmap str str)
    (positional_params : list str) :
  exists fragment,
    interpret template_name named_params positional_params = Ok fragment /\
    (values_brace_free named_params ->
     Forall (fun p => brace_free p = true) positional_params ->
     brace_free fragment = true).
Proof.
  unfold interpret.
  destruct positional_params as [|a [|b [|c [|d rest]]]];
    cbn [length Nat.leb getitem lookup list_lookup mbind result_bind nonempty
         negb andb];
    rewrite ?andb_false_r, ?andb_true_r;
    repeat match goal with
      | |- context [if ?b then _ else _] => destruct b eqn:?
      | |- context [mbind _ (Ok _)] => cbn [mbind result_bind]
      end;
    (eexists; split; [reflexivity|]);
    intros Hn Hp;
    repeat match goal with
      | H : Forall _ (_ :: _) |- _ => inversion H; subst; clear H
      end;
    brace_free_concat.
Qed.

Lemma parse_wiki_template_total (template : str) :
  exists fragment,
    parse_wiki_template template = Ok fragment /\
    (brace_free (strip_chars is_brace template) = true ->
     brace_free fragment = true).
Proof.
  unfold parse_wiki_template.
  set (t := strip_chars is_brace template).
  pose proof (split_on_nonempty 124 t) as Hne.
  pose proof (split_on_brace_free 124 t) as Hbf.
  destruct (split_on 124 t) as [|p0 parts]; [easy|]. clear Hne.
  cbn [nonempty negb getitem lookup list_lookup mbind result_bind drop].
  rewrite drop_0.
  destruct (parse_params_spec parts ∅ []) as (named & pos & -> & _ & Hb).
  cbn [mbind result_bind].
  destruct (interpret_total (strip p0) named pos) as (r & -> & Hr).
  exists r. split; [reflexivity|]. intros Ht.
  specialize (Hbf Ht). inversion Hbf; subst.
  destruct Hb as [Hn Hp]; auto. apply map_Forall_empty.
Qed.

(** ** Duplicate keys *)

(** C3 as stated fails: for the parameters of [{{étyl|la|fr|mot=a|mot=b}}],
    where the key [mot] is given twice, the mapping does not hold the value
    of the first occurrence. *)
Lemma duplicate_key_not_first :
  ~ (forall named_params positional_params,
       parse_params [lit "la"; lit "fr"; lit "mot=a"; lit "mot=b"] ∅ []
         = Ok (named_params, positional_params) ->
       named_params !! lit "mot"
         = first_binding (lit "mot") [lit "la"; lit "fr"; lit "mot=a"; lit "mot=b"]).
Proof.
  intros H.
  destruct (parse_params_spec [lit "la"; lit "fr"; lit "mot=a"; lit "mot=b"] ∅ [])
    as (named & pos & E & Hl & _).
  specialize (H _ _ E). rewrite Hl in H. vm_compute in H. discriminate.
Qed.

(** C3, amended: parsing the parameters never fails, and the mapping binds
    each key to the value of its last occurrence (a key that occurs in no
    part is not bound); so [{{étyl|la|fr|mot=a|mot=b}}] shows the word [b]. *)
Theorem duplicate_key_keeps_last :
  (forall parts, exists named_params positional_params,
     parse_params parts ∅ [] = Ok (named_params, positional_params) /\
     forall key, named_params !! key = last_binding key parts) /\
  parse_wiki_template (lit "{{étyl|la|fr|mot=a|mot=b}}") = Ok (lit "*latin* *b*").
Proof.
  split; [|vm_compute; reflexivity].
  intros parts. destruct (parse_params_spec parts ∅ []) as (named & pos & E & Hl & _).
  exists named, pos. split; [exact E|]. intros key. rewrite Hl.
  destruct (last_binding key parts); [reflexivity|apply lookup_empty].
Qed.

(** ** Unknown templates *)

Lemma interpret_unknown (template_name : str) named_params positional_params :
  name_in recognized_names template_name = false ->
  interpret template_name named_params positional_params = Ok [].
Proof.
  unfold name_in, recognized_names. cbn [existsb].
  rewrite !orb_false_iff.
  intros (H1 & H2 & H3 & H4 & H5 & H6 & H7 & H8 & H9 & H10 & H11 & H12 &
          H13 & H14 & H15 & H16 & H17 & H18 & _).
  unfold interpret, name_in. cbn [existsb].
  now rewrite H1, H2, H3, H4, H5, H6, H7, H8, H9, H10, H11, H12, H13, H14,
    H15, H16, H17, H18.
Qed.

(** C5: a template whose name is none of the recognized names is resolved to
    the empty fragment, and no exception is raised; no template at all
    makes the interpreter raise. *)
Theorem unknown_template_is_empty (template : str) :
  name_in recognized_names (name_of_template template) = false ->
  parse_wiki_template template = Ok [] /\
  forall other, exists fragment, parse_wiki_template other = Ok fragment.
Proof.
  intros H. split.
  - unfold parse_wiki_template. unfold name_of_template in H.
    pose proof (split_on_nonempty 124 (strip_chars is_brace template)) as Hne.
    destruct (split_on 124 (strip_chars is_brace template)) as [|p0 parts]; [easy|].
    cbn [nonempty negb getitem lookup list_lookup mbind result_bind drop hd] in *.
    rewrite drop_0.
    destruct (parse_params_spec parts ∅ []) as (named & pos & -> & _).
    cbn [mbind result_bind]. now apply interpret_unknown.
  - intros other. destruct (parse_wiki_template_total other) as (r & -> & _). eauto.
Qed.

Lemma unknown_template_is_empty_witness :
  name_in recognized_names (name_of_template (lit "{{foo|bar|x=y}}")) = false /\
  parse_wiki_template (lit "{{foo|bar|x=y}}") = Ok [].
Proof.
  split; [vm_compute; reflexivity|].
  apply (unknown_template_is_empty (lit "{{foo|bar|x=y}}")). vm_compute; reflexivity.
Defined.

(** ** Fragments carry no brace *)

Lemma strip_chars_brace_free_id (s : str) :
  brace_free s = true -> strip_chars is_brace s = s.
Proof.
  intros H. unfold strip_chars.
  assert (Hd : forall t, brace_free t = true -> dropwhile is_brace t = t).
  { intros [|c t]; cbn; [easy|]. unfold not_brace.
    now destruct (is_brace c). }
  rewrite (Hd s H), Hd, reverse_involutive; [reflexivity|].
  now rewrite brace_free_reverse.
Qed.

Lemma strip_braces_delimited (inner : str) :
  brace_free inner = true ->
  strip_chars is_brace ([123; 123] ++ inner ++ [125; 125]) = inner.
Proof.
  intros H. rewrite <- (strip_chars_brace_free_id inner H) at 2.
  unfold strip_chars.
  cbn [app dropwhile is_brace N.eqb Pos.eqb orb].
  destruct inner as [|c inner]; [reflexivity|].
  cbn [app dropwhile]. cbn in H. apply andb_true_iff in H as [Hc H].
  unfold not_brace in Hc. destruct (is_brace c); [discriminate|].
  change (c :: inner ++ [125; 125]) with ((c :: inner) ++ [125; 125]).
  rewrite reverse_app. reflexivity.
Qed.

(** C10: the fragment of a template whose content holds no brace holds no
    brace either. *)
Theorem fragment_brace_free (inner : str) :
  brace_free inner = true ->
  exists fragment,
    parse_wiki_template (lit "{{" ++ inner ++ lit "}}") = Ok fragment /\
    brace_free fragment = true.
Proof.
  intros H.
  destruct (parse_wiki_template_total (lit "{{" ++ inner ++ lit "}}"))
    as (r & E & Hr).
  exists r. split; [exact E|]. apply Hr.
  change (lit "{{") with [123; 123]. change (lit "}}") with [125; 125].
  now rewrite strip_braces_delimited.
Qed.

Lemma fragment_brace_free_witness :
  brace_free (lit "étyl|grc|fr|mot=χάος|tr=kháos") = true /\
  exists fragment,
    parse_wiki_template (lit "{{" ++ lit "étyl|grc|fr|mot=χάος|tr=kháos" ++ lit "}}")
      = Ok fragment /\
    brace_free fragment = true.
Proof.
  split; [vm_compute; reflexivity|].
  apply (fragment_brace_free (lit "étyl|grc|fr|mot=χάος|tr=kháos")).
  vm_compute; reflexivity.
Defined.

(** ** Greedy runs *)

Lemma span_app p (a : str) c r :
  forallb p a = true -> p c = false -> span p (a ++ c :: r) = (a, c :: r).
Proof.
  induction a as [|x a IH]; cbn; intros Ha Hc.
  - now rewrite Hc.
  - apply andb_true_iff in Ha as [-> Ha]. now rewrite IH.
Qed.

Lemma span_all p (a : str) : forallb p a = true -> span p a = (a, []).
Proof.
  induction a as [|x a IH]; cbn; [easy|].
  intros [-> Ha]%andb_true_iff. now rewrite IH.
Qed.

Lemma span_spec p (s a r : str) :
  span p s = (a, r) ->
  s = a ++ r /\ forallb p a = true /\
  match r with [] => True | c :: _ => p c = false end.
Proof.
  revert a r; induction s as [|x s IH]; cbn; intros a r.
  - intros [= <- <-]. easy.
  - destruct (p x) eqn:Hx.
    + destruct (span p s) as [a' r'] eqn:E. intros [= <- <-].
      destruct (IH _ _ eq_refl) as (-> & Ha & Hr). cbn. now rewrite Hx.
    + intros [= <- <-]. cbn. easy.
Qed.

(** ** One pass of the resolver *)

Lemma count_braces_app (a b : str) :
  count_braces (a ++ b) = (count_braces a + count_braces b)%nat.
Proof. induction a as [|c a IH]; cbn; [reflexivity|]. rewrite IH. lia. Qed.

Lemma count_braces_free (s : str) : brace_free s = true -> count_braces s = 0%nat.
Proof.
  induction s as [|c s IH]; cbn; [reflexivity|].
  unfold not_brace. intros [Hc Hs]%andb_true_iff.
  destruct (is_brace c); [discriminate|]. now rewrite IH.
Qed.

Lemma re_template_match (w rest : str) :
  brace_free w = true ->
  re_template ([123; 123] ++ w ++ [125; 125] ++ rest) = Some (4 + length w)%nat.
Proof.
  intros H. cbn [app re_template].
  change (w ++ 125 :: 125 :: rest) with (w ++ 125 :: (125 :: rest)).
  now rewrite (span_app not_brace w 125 (125 :: rest) H eq_refl).
Qed.

Lemma re_template_inv (s : str) n :
  re_template s = Some n ->
  exists w rest,
    s = [123; 123] ++ w ++ [125; 125] ++ rest /\ brace_free w = true /\
    n = (4 + length w)%nat.
Proof.
  unfold re_template.
  destruct s as [|c1 [|c2 t]]; try discriminate.
  - destruct c1 as [|p]; [discriminate|].
    repeat (destruct p as [p|p|]; try discriminate).
  - destruct (N.eq_dec c1 123) as [->|H1].
    2:{ destruct c1 as [|p]; [discriminate|].
        repeat (destruct p as [p|p|]; try discriminate); congruence. }
    destruct (N.eq_dec c2 123) as [->|H2].
    2:{ destruct c2 as [|p]; [discriminate|].
        repeat (destruct p as [p|p|]; try discriminate); congruence. }
    destruct (span not_brace t) as [w r] eqn:E.
    destruct (span_spec _ _ _ _ E) as (-> & Hw & _).
    destruct r as [|d1 [|d2 rest]]; try discriminate.
    + destruct d1 as [|p]; [discriminate|].
      repeat (destruct p as [p|p|]; try discriminate).
    + destruct (N.eq_dec d1 125) as [->|H1].
      2:{ destruct d1 as [|p]; [discriminate|].
          repeat (destruct p as [p|p|]; try discriminate); congruence. }
      destruct (N.eq_dec d2 125) as [->|H2].
      2:{ destruct d2 as [|p]; [discriminate|].
          repeat (destruct p as [p|p|]; try discriminate); congruence. }
      intros [= <-]. exists w, rest. easy.
Qed.

Lemma re_template_head (c : char) (s : str) :
  c <> 123 -> re_template (c :: s) = None.
Proof.
  intros Hc. destruct (re_template (c :: s)) eqn:E; [|reflexivity].
  apply re_template_inv in E as (w & rest & [= -> _] & _). congruence.
Qed.

Lemma sub_fn_from_skip m f (a rest : str) :
  sub_fn_from m f (length a) (a ++ rest) = sub_fn_from m f 0 rest.
Proof. induction a as [|c a IH]; [reflexivity|exact IH]. Qed.

Lemma resolve_pass_copy (c : char) (s : str) :
  re_template (c :: s) = None ->
  resolve_pass (c :: s) = (rest ← resolve_pass s; Ok (c :: rest)).
Proof. unfold resolve_pass, re_sub_fn. cbn [sub_fn_from]. now intros ->. Qed.

Lemma sub_fn_from_match m f (c : char) (a rest : str) :
  m (c :: a ++ rest) = Some (S (length a)) ->
  sub_fn_from m f 0 (c :: a ++ rest)
  = (r ← f (c :: a); rest' ← sub_fn_from m f 0 rest; Ok (r ++ rest')).
Proof.
  intros E. cbn [sub_fn_from]. rewrite E.
  cbn [Init.Nat.pred take]. now rewrite take_app_length, sub_fn_from_skip.
Qed.

Lemma resolve_pass_match (w rest : str) :
  brace_free w = true ->
  resolve_pass ([123; 123] ++ w ++ [125; 125] ++ rest)
  = (r ← parse_wiki_template ([123; 123] ++ w ++ [125; 125]);
     rest' ← resolve_pass rest;
     Ok (r ++ rest')).
Proof.
  intros H. unfold resolve_pass, re_sub_fn.
  pose proof (re_template_match w rest H) as E.
  replace ([123; 123] ++ w ++ [125; 125] ++ rest)
    with (123 :: (123 :: w ++ [125; 125]) ++ rest) in *
    by (cbn; now rewrite <- app_assoc).
  rewrite sub_fn_from_match; [reflexivity|].
  etransitivity; [exact E|].
  f_equal. cbn. rewrite length_app. cbn. lia.
Qed.

(** Induction along the scan of one pass. *)
Lemma resolve_pass_ind (P : str -> Prop) :
  P [] ->
  (forall c s, re_template (c :: s) = None -> P s -> P (c :: s)) ->
  (forall w rest, brace_free w = true -> P rest ->
     P ([123; 123] ++ w ++ [125; 125] ++ rest)) ->
  forall s, P s.
Proof.
  intros Hnil Hcopy Hmatch s.
  remember (length s) as n eqn:Hn.
  revert s Hn. induction n as [n IH] using lt_wf_ind. intros s ->.
  destruct s as [|c s]; [exact Hnil|].
  destruct (re_template (c :: s)) as [k|] eqn:E.
  - destruct (re_template_inv _ _ E) as (w & rest & Heq & Hw & _).
    rewrite Heq in *. apply Hmatch; [exact Hw|].
    eapply IH; [|reflexivity]. cbn [app length]. rewrite !length_app. cbn [length]. lia.
  - apply Hcopy; [exact E|]. eapply IH; [|reflexivity]. cbn. lia.
Qed.

(** A pass never raises; it leaves the text as it is or removes at least
    four braces. *)
Lemma resolve_pass_total (s : str) :
  exists s',
    resolve_pass s = Ok s' /\
    (s' = s \/ (count_braces s' + 4 <= count_braces s)%nat) /\
    (count_braces s' <= count_braces s)%nat.
Proof.
  induction s as [|c s E (s' & Hs & Hd & Hle)|w rest Hw (s' & Hs & Hd & Hle)]
    using resolve_pass_ind.
  - exists []. cbn. auto.
  - exists (c :: s'). rewrite (resolve_pass_copy _ _ E), Hs. cbn.
    split; [reflexivity|]. split; [|lia].
    destruct Hd as [->|Hd]; [now left|right; lia].
  - destruct (parse_wiki_template_total ([123; 123] ++ w ++ [125; 125]))
      as (r & Hr & Hbf).
    exists (r ++ s'). rewrite (resolve_pass_match _ _ Hw), Hr. cbn [mbind result_bind].
    rewrite Hs. cbn [mbind result_bind]. split; [reflexivity|].
    assert (Hr0 : count_braces r = 0%nat).
    { apply count_braces_free, Hbf.
      now rewrite (strip_braces_delimited w Hw). }
    rewrite !count_braces_app, Hr0, (count_braces_free w Hw). cbn. split; [right|]; lia.
Qed.

(** ** Brace nesting depth bounds the number of passes *)

Lemma step_depth_plain cur (c : char) : not_brace c = true -> step_depth cur c = cur.
Proof.
  unfold not_brace, is_brace, step_depth.
  destruct (c =? 123), (c =? 125); cbn; congruence.
Qed.

Lemma brace_depth_from_ge cur (s : str) : (cur <= brace_depth_from cur s)%nat.
Proof. destruct s; cbn; lia. Qed.

Lemma brace_depth_from_free (w s : str) cur :
  brace_free w = true -> brace_depth_from cur (w ++ s) = brace_depth_from cur s.
Proof.
  induction w as [|c w IH]; cbn [app brace_depth_from]; [easy|].
  intros [Hc Hw]%andb_true_iff. rewrite (step_depth_plain _ _ Hc), (IH Hw).
  pose proof (brace_depth_from_ge cur s). lia.
Qed.

Lemma brace_depth_from_template (w rest : str) cur :
  brace_free w = true ->
  brace_depth_from cur ([123; 123] ++ w ++ [125; 125] ++ rest)
  = Nat.max (cur + 2) (brace_depth_from cur rest).
Proof.
  intros Hw. cbn [app brace_depth_from].
  change (step_depth cur 123) with (S cur).
  change (step_depth (S cur) 123) with (S (S cur)).
  rewrite (brace_depth_from_free w _ _ Hw). cbn [brace_depth_from].
  change (step_depth (S (S cur)) 125) with (S cur).
  change (step_depth (S cur) 125) with cur.
  pose proof (brace_depth_from_ge cur rest). lia.
Qed.

Lemma match_depth_skip (a rest : str) cur :
  match_depth_from (length a) cur (a ++ rest)
  = match_depth_from 0 (fold_left step_depth a cur) rest.
Proof.
  revert cur; induction a as [|c a IH]; intros cur; [reflexivity|].
  cbn [length app match_depth_from fold_left]. apply IH.
Qed.

Lemma fold_step_free (w : str) cur :
  brace_free w = true -> fold_left step_depth w cur = cur.
Proof.
  revert cur; induction w as [|c w IH]; intros cur; cbn [fold_left]; [easy|].
  intros [Hc Hw]%andb_true_iff. now rewrite (step_depth_plain _ _ Hc), IH.
Qed.

Lemma match_depth_match (c : char) (a rest : str) cur :
  re_template (c :: a ++ rest) = Some (S (length a)) ->
  match_depth_from 0 cur (c :: a ++ rest)
  = Nat.max (cur + 2)
      (match_depth_from 0 (fold_left step_depth a (step_depth cur c)) rest).
Proof.
  intros E. cbn [match_depth_from]. rewrite E. cbn [Init.Nat.pred].
  now rewrite match_depth_skip.
Qed.

Lemma match_depth_template (w rest : str) cur :
  brace_free w = true ->
  match_depth_from 0 cur ([123; 123] ++ w ++ [125; 125] ++ rest)
  = Nat.max (cur + 2) (match_depth_from 0 cur rest).
Proof.
  intros Hw. pose proof (re_template_match w rest Hw) as E.
  replace ([123; 123] ++ w ++ [125; 125] ++ rest)
    with (123 :: (123 :: w ++ [125; 125]) ++ rest) in *
    by (cbn; now rewrite <- app_assoc).
  rewrite match_depth_match.
  - cbn [fold_left]. rewrite fold_left_app, (fold_step_free w _ Hw). reflexivity.
  - etransitivity; [exact E|]. f_equal. cbn. rewrite length_app. cbn. lia.
Qed.

Lemma match_depth_copy (c : char) (s : str) cur :
  re_template (c :: s) = None ->
  match_depth_from 0 cur (c :: s) = match_depth_from 0 (step_depth cur c) s.
Proof. intros E. cbn [match_depth_from]. now rewrite E. Qed.

Lemma match_depth_le_brace_depth (s : str) :
  forall cur, (match_depth_from 0 cur s <= brace_depth_from cur s)%nat.
Proof.
  induction s as [|c s E IH|w rest Hw IH] using resolve_pass_ind; intros cur.
  - cbn. lia.
  - rewrite (match_depth_copy _ _ _ E). cbn [brace_depth_from].
    specialize (IH (step_depth cur c)). lia.
  - rewrite (match_depth_template _ _ _ Hw), (brace_depth_from_template _ _ _ Hw).
    specialize (IH cur). lia.
Qed.

Lemma match_depth_flat m (nm : str) :
  flat m nm ->
  forall cur z,
    match_depth_from 0 cur (nm ++ z)
    = Nat.max (if m then cur + 2 else 0) (match_depth_from 0 cur z).
Proof.
  induction 1 as [|c s m Hc _ IH|w s m Hw _ IH]; intros cur z.
  - reflexivity.
  - cbn [app]. rewrite match_depth_copy, (step_depth_plain _ _ Hc); [apply IH|].
    apply re_template_head. intros ->. discriminate.
  - rewrite <- !app_assoc, (match_depth_template _ _ _ Hw), IH.
    destruct m; lia.
Qed.

Lemma match_depth_none (s : str) :
  forall cur, match_depth_from 0 cur s = 0%nat -> resolve_pass s = Ok s.
Proof.
  induction s as [|c s E IH|w rest Hw IH] using resolve_pass_ind; intros cur.
  - reflexivity.
  - rewrite (match_depth_copy _ _ _ E). intros H.
    now rewrite (resolve_pass_copy _ _ E), (IH _ H).
  - rewrite (match_depth_template _ _ _ Hw). lia.
Qed.

Lemma free_prefix_split (frag w' s1 y : str) (b : char) :
  brace_free frag = true -> brace_free w' = true -> is_brace b = true ->
  frag ++ s1 = w' ++ b :: y ->
  exists w'', w' = frag ++ w'' /\ s1 = w'' ++ b :: y.
Proof.
  revert w'. induction frag as [|f frag IH]; intros w' Hf Hw Hb E.
  - exists w'. auto.
  - cbn in Hf. apply andb_true_iff in Hf as [Hf1 Hf].
    destruct w' as [|x w'].
    + cbn in E. injection E as -> _. unfold not_brace in Hf1.
      rewrite Hb in Hf1. discriminate.
    + cbn in E, Hw. injection E as -> E. apply andb_true_iff in Hw as [_ Hw].
      destruct (IH w' Hf Hw Hb E) as (w'' & -> & ->). now exists w''.
Qed.

(** Where the output of a pass shows its first brace, the input holds, up
    to that brace, only plain characters and innermost templates. *)
Lemma resolve_pass_first_brace (x : str) :
  forall w' b y,
    resolve_pass x = Ok (w' ++ b :: y) ->
    brace_free w' = true -> is_brace b = true ->
    exists m nm x',
      x = nm ++ b :: x' /\ flat m nm /\ re_template (b :: x') = None /\
      resolve_pass x' = Ok y /\ (m = false -> nm = w').
Proof.
  induction x as [|c s E IH|w rest Hw IH] using resolve_pass_ind;
    intros w' b y Hx Hw' Hb.
  - destruct w'; discriminate.
  - rewrite (resolve_pass_copy _ _ E) in Hx.
    destruct (resolve_pass_total s) as (s1 & Hs & _). rewrite Hs in Hx.
    cbn [mbind result_bind] in Hx. injection Hx as Hx.
    destruct w' as [|x w'].
    + cbn in Hx. injection Hx as -> ->.
      exists false, [], s. repeat split; auto. constructor.
    + cbn in Hx, Hw'. injection Hx as -> ->.
      apply andb_true_iff in Hw' as [Hc Hw'].
      destruct (IH _ _ _ Hs Hw' Hb) as (m & nm & x' & -> & Hf & Hn & Hp & Hm).
      exists m, (x :: nm), x'. repeat split; auto.
      * now constructor.
      * intros ->. now rewrite Hm.
  - rewrite (resolve_pass_match _ _ Hw) in Hx.
    destruct (parse_wiki_template_total ([123; 123] ++ w ++ [125; 125]))
      as (frag & Hfrag & Hbf).
    rewrite (strip_braces_delimited _ Hw) in Hbf. specialize (Hbf Hw).
    destruct (resolve_pass_total rest) as (s1 & Hs & _).
    rewrite Hfrag, Hs in Hx. cbn [mbind result_bind] in Hx. injection Hx as Hx.
    destruct (free_prefix_split _ _ _ _ _ Hbf Hw' Hb Hx) as (w'' & -> & ->).
    rewrite brace_free_app in Hw'. apply andb_true_iff in Hw' as [_ Hw''].
    destruct (IH _ _ _ Hs Hw'' Hb) as (m & nm & x' & -> & Hf & Hn & Hp & _).
    exists true, ([123; 123] ++ w ++ [125; 125] ++ nm), x'.
    repeat split; auto.
    + now rewrite <- !app_assoc.
    + eapply flat_template; eassumption.
    + discriminate.
Qed.

Lemma match_depth_free (w z : str) cur :
  brace_free w = true ->
  match_depth_from 0 cur (w ++ z) = match_depth_from 0 cur z.
Proof.
  induction w as [|c w IH]; cbn [app]; [easy|].
  intros [Hc Hw]%andb_true_iff.
  rewrite match_depth_copy, (step_depth_plain _ _ Hc); [now apply IH|].
  apply re_template_head. intros ->. discriminate.
Qed.

Lemma step_depth_mono (c : char) cur cur' :
  (cur' <= cur)%nat -> (step_depth cur' c <= step_depth cur c)%nat.
Proof. unfold step_depth. destruct (c =? 123), (c =? 125); lia. Qed.

(** Each pass brings the deepest innermost template at least one level
    up. *)
Lemma match_depth_pass (n : nat) :
  forall s, (length s <= n)%nat ->
  forall s1 cur cur',
    resolve_pass s = Ok s1 -> (cur' <= cur)%nat ->
    (match_depth_from 0 cur' s1 <= Init.Nat.pred (match_depth_from 0 cur s))%nat.
Proof.
  induction n as [|n IH]; intros s Hlen s1 cur cur' Hs Hcur.
  { destruct s; [|cbn in Hlen; lia]. injection Hs as <-. cbn. lia. }
  destruct s as [|c s]; [injection Hs as <-; cbn; lia|].
  destruct (re_template (c :: s)) as [k|] eqn:E.
  - apply re_template_inv in E as (w & rest & Heq & Hw & _). rewrite Heq in *.
    rewrite (resolve_pass_match _ _ Hw) in Hs.
    destruct (parse_wiki_template_total ([123; 123] ++ w ++ [125; 125]))
      as (frag & Hfrag & Hbf).
    rewrite (strip_braces_delimited _ Hw) in Hbf. specialize (Hbf Hw).
    destruct (resolve_pass_total rest) as (s1r & Hr & _).
    rewrite Hfrag, Hr in Hs. cbn [mbind result_bind] in Hs. injection Hs as <-.
    rewrite (match_depth_free _ _ _ Hbf), (match_depth_template _ _ _ Hw).
    assert (Hl : (length rest <= n)%nat).
    { cbn [app length] in Hlen. rewrite !length_app in Hlen. cbn [length] in Hlen. lia. }
    specialize (IH rest Hl s1r cur cur' Hr Hcur). lia.
  - rewrite (resolve_pass_copy _ _ E) in Hs.
    destruct (resolve_pass_total s) as (s1' & Hs' & _).
    rewrite Hs' in Hs. cbn [mbind result_bind] in Hs. injection Hs as <-.
    rewrite (match_depth_copy _ _ _ E).
    assert (Hl : (length s <= n)%nat) by (cbn in Hlen; lia).
    destruct (re_template (c :: s1')) as [k|] eqn:E'.
    2:{ rewrite (match_depth_copy _ _ _ E').
        apply (IH s Hl s1' _ _ Hs'). now apply step_depth_mono. }
    apply re_template_inv in E' as (w' & out & Heq & Hw' & _).
    cbn [app] in Heq. injection Heq as -> ->.
    pose proof (match_depth_template w' out cur' Hw') as Hout.
    cbn [app] in Hout. rewrite Hout. clear Hout.
    change (step_depth cur 123) with (S cur).
    destruct (resolve_pass_first_brace s [] 123 (w' ++ 125 :: 125 :: out) Hs'
                eq_refl eq_refl)
      as (m1 & nm1 & x2 & -> & Hf1 & Hn1 & Hp2 & Hm1).
    destruct (resolve_pass_first_brace x2 w' 125 (125 :: out) Hp2 Hw' eq_refl)
      as (m2 & nm2 & x3 & -> & Hf2 & Hn2 & Hp3 & Hm2).
    destruct (resolve_pass_first_brace x3 [] 125 out Hp3 eq_refl eq_refl)
      as (m3 & nm3 & x4 & -> & Hf3 & Hn3 & Hp4 & Hm3).
    rewrite (match_depth_flat _ _ Hf1), (match_depth_copy _ _ _ Hn1).
    change (step_depth (S cur) 123) with (S (S cur)).
    rewrite (match_depth_flat _ _ Hf2), (match_depth_copy _ _ _ Hn2).
    change (step_depth (S (S cur)) 125) with (S cur).
    rewrite (match_depth_flat _ _ Hf3), (match_depth_copy _ _ _ Hn3).
    change (step_depth (S cur) 125) with cur.
    assert (Hl4 : (length x4 <= n)%nat).
    { rewrite !length_app in Hl. cbn [length] in Hl.
      rewrite !length_app in Hl. cbn [length] in Hl.
      rewrite !length_app in Hl. cbn [length] in Hl. lia. }
    specialize (IH x4 Hl4 out cur cur' Hp4 Hcur).
    destruct m1, m2, m3; try lia.
    rewrite (Hm1 eq_refl), (Hm2 eq_refl), (Hm3 eq_refl) in E.
    pose proof (re_template_match w' x4 Hw') as E4. cbn [app] in E, E4.
    congruence.
Qed.

Lemma match_depth_two (s : str) :
  forall cur,
    match_depth_from 0 cur s = 0%nat \/ (2 <= match_depth_from 0 cur s)%nat.
Proof.
  induction s as [|c s E IH|w rest Hw IH] using resolve_pass_ind; intros cur.
  - now left.
  - rewrite (match_depth_copy _ _ _ E). apply IH.
  - rewrite (match_depth_template _ _ _ Hw). right. lia.
Qed.

(** The loop terminates, within the bounds given by the nesting depth and
    by the number of braces. *)
Lemma resolve_loop_bounded (s : str) :
  exists r n,
    (1 <= n)%nat /\
    (n <= Nat.max 1 (match_depth_from 0 0 s))%nat /\
    (4 * (n - 1) <= count_braces s)%nat /\
    forall fuel, (n <= fuel)%nat -> resolve_loop fuel s = Some (Ok (r, n)).
Proof.
  remember (count_braces s) as k eqn:Hk.
  revert s Hk. induction k as [k IH] using lt_wf_ind. intros s ->.
  destruct (resolve_pass_total s) as (s' & Hs & Hd & _).
  destruct (eqb_str s s') eqn:E.
  - exists s', 1%nat. repeat split; try lia.
    intros [|fuel] Hf; [lia|]. cbn [resolve_loop]. now rewrite Hs, E.
  - apply eqb_str_neq in E as Hne.
    destruct Hd as [->|Hd]; [congruence|].
    destruct (IH (count_braces s') ltac:(lia) s' eq_refl)
      as (r & n & Hn & Hm & Hb & Hr).
    pose proof (match_depth_pass (length s) s (le_n _) s' 0%nat 0%nat Hs (le_n _)) as Hp.
    assert (Hpos : match_depth_from 0 0 s <> 0%nat).
    { intros H0. apply match_depth_none in H0. congruence. }
    destruct (match_depth_two s 0%nat) as [H0|H2]; [congruence|].
    exists r, (S n). repeat split; try lia.
    intros [|fuel] Hf; [lia|]. cbn [resolve_loop].
    rewrite Hs, E, (Hr fuel) by lia. reflexivity.
Qed.

(** ** Termination of the resolution loop *)

Lemma count_braces_le_length (s : str) : (count_braces s <= length s)%nat.
Proof. induction s as [|c s IH]; cbn; [lia|]. destruct (is_brace c); lia. Qed.

Lemma resolve_fuel_enough (s : str) :
  exists r n, resolve_loop (resolve_fuel s) s = Some (Ok (r, n)).
Proof.
  destruct (resolve_loop_bounded s) as (r & n & Hn & _ & Hb & Hr).
  exists r, n. apply Hr. unfold resolve_fuel.
  pose proof (count_braces_le_length s). lia.
Qed.

(** ** Well-nested templates *)

Lemma render_chars s rest : render (chars s rest) = s ++ render rest.
Proof. induction s as [|c s IH]; cbn; [reflexivity|now rewrite IH]. Qed.

Lemma nesting_depth_chars s rest : nesting_depth (chars s rest) = nesting_depth rest.
Proof. induction s as [|c s IH]; cbn; [reflexivity|exact IH]. Qed.

Lemma plain_chars_chars s rest :
  plain_chars (chars s rest) = brace_free s && plain_chars rest.
Proof. induction s as [|c s IH]; cbn; [reflexivity|]. now rewrite IH, andb_assoc. Qed.

Lemma render_flat (t : template_text) :
  plain_chars t = true -> nesting_depth t = 0%nat -> brace_free (render t) = true.
Proof.
  induction t as [|c t IH|b IHb t IHt]; cbn [plain_chars nesting_depth render];
    [easy| |lia].
  intros [Hc Ht]%andb_true_iff Hd.
  change (brace_free (c :: render t)) with (not_brace c && brace_free (render t)).
  now rewrite Hc, IH.
Qed.

Lemma first_brace_free_app (w s : str) :
  brace_free w = true -> first_brace (w ++ s) = first_brace s.
Proof.
  unfold first_brace. induction w as [|c w IH]; cbn; [easy|].
  intros [-> Hw]%andb_true_iff. auto.
Qed.

Lemma first_brace_render (t : template_text) (s : str) :
  plain_chars t = true -> (1 <= nesting_depth t)%nat ->
  first_brace (render t ++ s) = Some 123.
Proof.
  induction t as [|c t IH|b IHb t IHt]; cbn [plain_chars nesting_depth render]; [lia| |reflexivity].
  intros [Hc Ht]%andb_true_iff Hd. cbn [app]. unfold first_brace. cbn [dropwhile].
  rewrite Hc. now apply IH.
Qed.

Lemma re_template_nested (b : template_text) (s : str) :
  plain_chars b = true -> (1 <= nesting_depth b)%nat ->
  re_template ([123; 123] ++ render b ++ s) = None /\
  re_template (123 :: render b ++ s) = None.
Proof.
  intros Hp Hd. split.
  - destruct (re_template _) eqn:E; [|reflexivity].
    apply re_template_inv in E as (w & rest & [= E] & Hw & _).
    apply (f_equal first_brace) in E.
    rewrite first_brace_render, first_brace_free_app in E by assumption.
    discriminate.
  - destruct (re_template _) eqn:E; [|reflexivity].
    apply re_template_inv in E as (w & rest & [= E] & Hw & _).
    destruct b as [|c b|b1 b2]; cbn in Hd, Hp, E; [lia| |].
    + injection E as -> _. discriminate.
    + injection E as E. apply (f_equal first_brace) in E.
      rewrite first_brace_free_app in E by assumption. discriminate.
Qed.

(** One pass on a well-nested text resolves exactly the innermost
    templates: the nesting depth goes down by one. *)
Lemma resolve_pass_render (t : template_text) :
  plain_chars t = true ->
  forall rest rest', resolve_pass rest = Ok rest' ->
  exists t',
    plain_chars t' = true /\
    nesting_depth t' = Init.Nat.pred (nesting_depth t) /\
    (nesting_depth t = 0%nat -> t' = t) /\
    (count_braces (render t') <= count_braces (render t))%nat /\
    ((1 <= nesting_depth t)%nat ->
     (count_braces (render t') < count_braces (render t))%nat) /\
    resolve_pass (render t ++ rest) = Ok (render t' ++ rest').
Proof.
  induction t as [|c t IH|b IHb t IHt]; intros Hp rest rest' Hrest.
  - exists TEnd. cbn. repeat split; auto; lia.
  - cbn in Hp. apply andb_true_iff in Hp as [Hc Hp].
    destruct (IH Hp rest rest' Hrest) as (t' & Hp' & Hd' & Hz & Hle & Hlt & Hr).
    exists (TChar c t'). cbn [plain_chars nesting_depth render app count_braces].
    rewrite Hc, Hp'. repeat split; auto; try lia.
    + intros Hd. now rewrite Hz.
    + rewrite resolve_pass_copy, Hr; [reflexivity|].
      apply re_template_head. intros ->. discriminate.
  - cbn in Hp. apply andb_true_iff in Hp as [Hpb Hpt].
    destruct (IHt Hpt rest rest' Hrest) as (t' & Hp' & Hd' & _ & Hle & _ & Hr).
    destruct (Nat.eq_dec (nesting_depth b) 0%nat) as [Hflat|Hdeep].
    + pose proof (render_flat b Hpb Hflat) as Hw.
      destruct (parse_wiki_template_total ([123; 123] ++ render b ++ [125; 125]))
        as (r & Hpr & Hbf).
      rewrite (strip_braces_delimited _ Hw) in Hbf. specialize (Hbf Hw).
      exists (chars r t').
      rewrite plain_chars_chars, nesting_depth_chars, render_chars, Hbf, Hp', Hd'.
      cbn [nesting_depth render]. rewrite Hflat.
      rewrite !count_braces_app, (count_braces_free r Hbf), (count_braces_free _ Hw).
      cbn [count_braces is_brace N.eqb Pos.eqb orb Nat.add].
      repeat split; try lia.
      rewrite <- !app_assoc, (resolve_pass_match _ _ Hw), Hpr.
      cbn [mbind result_bind]. rewrite Hr. reflexivity.
    + destruct (IHb Hpb ([125; 125] ++ render t ++ rest)
                  ([125; 125] ++ render t' ++ rest'))
        as (b' & Hpb' & Hdb' & _ & Hleb & Hltb & Hrb).
      { cbn [app]. rewrite !resolve_pass_copy, Hr; [reflexivity| |];
          now apply re_template_head. }
      exists (TTemplate b' t'). cbn [plain_chars nesting_depth render].
      rewrite Hpb', Hp', Hdb', Hd'. rewrite !count_braces_app.
      specialize (Hltb ltac:(lia)).
      repeat split; try lia.
      destruct (re_template_nested b ([125; 125] ++ render t ++ rest) Hpb ltac:(lia))
        as [E1 E2].
      rewrite <- !app_assoc. cbn [app] in *.
      rewrite !resolve_pass_copy by assumption.
      rewrite Hrb. reflexivity.
Qed.

Lemma resolve_loop_render (d : nat) :
  forall t, plain_chars t = true -> nesting_depth t = d ->
  exists r, forall fuel, (d < fuel)%nat ->
    resolve_loop fuel (render t) = Some (Ok (r, S d)).
Proof.
  induction d as [|d IH]; intros t Hp Hd.
  - destruct (resolve_pass_render t Hp [] [] eq_refl) as (t' & _ & _ & Hz & _ & _ & Hr).
    rewrite (Hz Hd), !app_nil_r in Hr.
    exists (render t). intros [|fuel] Hf; [lia|]. cbn [resolve_loop].
    now rewrite Hr, eqb_str_refl.
  - destruct (resolve_pass_render t Hp [] [] eq_refl)
      as (t' & Hp' & Hd' & _ & _ & Hlt & Hr).
    rewrite !app_nil_r in Hr. specialize (Hlt ltac:(lia)).
    destruct (IH t' Hp' ltac:(lia)) as (r & Hloop).
    exists r. intros [|fuel] Hf; [lia|]. cbn [resolve_loop]. rewrite Hr.
    destruct (eqb_str (render t) (render t')) eqn:E.
    + apply eqb_str_eq in E. rewrite E in Hlt. lia.
    + rewrite Hloop by lia. reflexivity.
Qed.

Example passes_reach_brace_depth :
  resolve_loop 4 (lit "{{{{a}}{b}}{c}}") = Some (Ok ([], 4%nat)) /\
  brace_depth (lit "{{{{a}}{b}}{c}}") = 4%nat /\
  count_braces (lit "{{{{a}}{b}}{c}}") = 12%nat.
Proof. repeat split; vm_compute; reflexivity. Qed.

Lemma brace_depth_render (t : template_text) :
  plain_chars t = true ->
  forall cur z,
    brace_depth_from cur (render t ++ z)
    = Nat.max (cur + 2 * nesting_depth t) (brace_depth_from cur z).
Proof.
  induction t as [|c t IH|b IHb t IHt]; intros Hp cur z;
    cbn [plain_chars] in Hp.
  - cbn. pose proof (brace_depth_from_ge cur z). lia.
  - apply andb_true_iff in Hp as [Hc Hp].
    cbn [render app brace_depth_from nesting_depth].
    rewrite (step_depth_plain _ _ Hc), (IH Hp). lia.
  - apply andb_true_iff in Hp as [Hpb Hpt].
    cbn [render nesting_depth]. rewrite <- !app_assoc.
    cbn [app brace_depth_from].
    change (step_depth cur 123) with (S cur).
    change (step_depth (S cur) 123) with (S (S cur)).
    rewrite (IHb Hpb). cbn [brace_depth_from].
    change (step_depth (S (S cur)) 125) with (S cur).
    change (step_depth (S cur) 125) with cur.
    rewrite (IHt Hpt). lia.
Qed.

(** C1 as stated fails: the text [{{a}}] has nesting depth 1 and the loop
    makes two passes on it, the second one to see that nothing changes. *)
Lemma passes_exceed_nesting_depth :
  render (TTemplate (TChar 97 TEnd) TEnd) = lit "{{a}}" /\
  nesting_depth (TTemplate (TChar 97 TEnd) TEnd) = 1%nat /\
  resolve_loop 2 (lit "{{a}}") = Some (Ok ([], 2%nat)) /\
  ~ (forall fuel r n,
       resolve_loop fuel (render (TTemplate (TChar 97 TEnd) TEnd)) = Some (Ok (r, n)) ->
       (n <= nesting_depth (TTemplate (TChar 97 TEnd) TEnd))%nat).
Proof.
  split; [vm_compute; reflexivity|]. split; [reflexivity|].
  split; [vm_compute; reflexivity|].
  intros H. specialize (H 2%nat [] 2%nat eq_refl). cbn in H. lia.
Qed.

(** C1, amended: on every text the loop terminates without raising; it
    makes at least one pass, at most as many passes as the deepest nesting
    level of braces in the text (and one pass if there is no brace), and at
    most one more than a quarter of the number of braces.  On a text whose
    templates are properly nested, where the deepest level of braces is
    twice the nesting depth of the templates, the number of passes is
    exactly one more than that nesting depth. *)
Theorem resolve_loop_passes :
  (forall s, exists r n,
     (1 <= n)%nat /\
     (n <= Nat.max 1 (brace_depth s))%nat /\
     (4 * (n - 1) <= count_braces s)%nat /\
     forall fuel, (n <= fuel)%nat -> resolve_loop fuel s = Some (Ok (r, n))) /\
  (forall t, plain_chars t = true ->
     brace_depth (render t) = (2 * nesting_depth t)%nat /\
     exists r, forall fuel, (nesting_depth t < fuel)%nat ->
       resolve_loop fuel (render t) = Some (Ok (r, S (nesting_depth t)))).
Proof.
  split.
  - intros s. destruct (resolve_loop_bounded s) as (r & n & Hn & Hm & Hb & Hr).
    exists r, n. repeat split; auto.
    pose proof (match_depth_le_brace_depth s 0%nat). unfold brace_depth. lia.
  - intros t Hp. split.
    + pose proof (brace_depth_render t Hp 0%nat []) as H.
      rewrite app_nil_r in H. unfold brace_depth. rewrite H. cbn. lia.
    + now apply (resolve_loop_render (nesting_depth t)).
Qed.

Lemma resolve_loop_passes_witness :
  exists r,
    resolve_loop 3
      (render (TTemplate (TChar 120 (TTemplate (chars (lit "étyl|la") TEnd) TEnd)) TEnd))
    = Some (Ok (r, 3%nat)).
Proof.
  destruct (proj2 (proj2 resolve_loop_passes
              (TTemplate (TChar 120 (TTemplate (chars (lit "étyl|la") TEnd) TEnd)) TEnd)
              eq_refl)) as [r H].
  exists r. apply (H 3%nat). vm_compute. lia.
Defined.

(** ** Flattened links *)

Lemma sub_from_skip m (a rest : str) prev :
  sub_from m (length a) prev (a ++ rest) = sub_from m 0 (prev_after prev a) rest.
Proof.
  revert prev; induction a as [|c a IH]; intros prev; [reflexivity|].
  cbn [length app sub_from]. rewrite IH. f_equal.
  unfold prev_after. destruct a as [|x a]; [reflexivity|].
  change (last (c :: x :: a)) with (last (x :: a)).
  destruct (last (x :: a)) eqn:E; [reflexivity|].
  now apply last_None in E.
Qed.

Lemma sub_from_match m prev (c : char) (a rest r : str) :
  m prev (c :: a ++ rest) = Some (S (length a), r) ->
  sub_from m 0 prev (c :: a ++ rest)
  = r ++ sub_from m 0 (prev_after (Some c) a) rest.
Proof. intros E. cbn [sub_from]. rewrite E. cbn [Init.Nat.pred]. now rewrite sub_from_skip. Qed.

Lemma sub_from_ignoring_prev m :
  (forall p p' s, m p s = m p' s) ->
  forall s k p p', sub_from m k p s = sub_from m k p' s.
Proof.
  intros Hm s. induction s as [|c s IH]; intros k p p'; [reflexivity|].
  cbn [sub_from]. destruct k; [|reflexivity]. now rewrite (Hm p p').
Qed.

Lemma not_contains_forallb (c : char) (s : str) :
  contains c s = false -> forallb (fun x => negb (x =? c)) s = true.
Proof.
  unfold contains. induction s as [|x s IH]; cbn; [easy|].
  rewrite (N.eqb_sym c x). intros [-> H]%orb_false_iff. cbn. auto.
Qed.

Lemma re_link_head prev (c : char) (s : str) :
  (c =? 91) = false -> re_link prev (c :: s) = None.
Proof.
  intros Hc. destruct c as [|p]; [reflexivity|].
  repeat (destruct p as [p|p|]; try reflexivity). discriminate.
Qed.

Lemma flatten_links_plain_prefix (pre s : str) :
  contains 91 pre = false ->
  flatten_links (pre ++ s) = pre ++ flatten_links s.
Proof.
  unfold flatten_links, re_sub. intros Hpre.
  enough (forall prev,
            sub_from re_link 0 prev (pre ++ s) = pre ++ sub_from re_link 0 None s)
    by auto.
  induction pre as [|c pre IH]; intros prev.
  - apply sub_from_ignoring_prev. reflexivity.
  - change (contains 91 (c :: pre)) with ((91 =? c) || contains 91 pre) in Hpre.
    apply orb_false_iff in Hpre as [Hc Hpre].
    cbn [app sub_from]. rewrite (N.eqb_sym 91 c) in Hc.
    now rewrite (re_link_head _ _ _ Hc), (IH Hpre).
Qed.

Lemma link_display_match (d post : str) :
  d <> [] -> forallb not_rbracket d = true ->
  link_display (d ++ 93 :: 93 :: post) = Some ((length d + 2)%nat, d).
Proof.
  intros Hd H. unfold link_display.
  rewrite (span_app not_rbracket d 93 _ H eq_refl). now destruct d.
Qed.

Lemma re_link_display prev (t d post : str) :
  t <> [] -> d <> [] ->
  forallb not_bar_rbracket t = true -> forallb not_rbracket d = true ->
  re_link prev (91 :: 91 :: t ++ 124 :: d ++ 93 :: 93 :: post)
  = Some ((2 + length t + 1 + (length d + 2))%nat, d).
Proof.
  intros Ht Hd Htb Hdb. unfold re_link.
  rewrite (span_app not_bar_rbracket t 124 _ Htb eq_refl).
  rewrite (link_display_match d post Hd Hdb). now destruct t.
Qed.

Lemma re_link_target prev (t post : str) :
  t <> [] ->
  forallb not_bar_rbracket t = true -> forallb not_rbracket t = true ->
  re_link prev (91 :: 91 :: t ++ 93 :: 93 :: post)
  = Some ((2 + (length t + 2))%nat, t).
Proof.
  intros Ht Htb Hdb. unfold re_link.
  rewrite (span_app not_bar_rbracket t 93 _ Htb eq_refl).
  rewrite (link_display_match t post Ht Hdb). now destruct t.
Qed.

(** C9 as stated fails: with the target [a] and an empty display text, the
    link [[[a|]]] is not replaced by that (empty) text but by [a|]. *)
Lemma empty_display_not_flattened :
  contains 93 (lit "a") = false /\ contains 124 (lit "a") = false /\
  contains 93 [] = false /\
  flatten_links (lit "[[" ++ lit "a" ++ lit "|" ++ [] ++ lit "]]") = lit "a|" /\
  flatten_links (lit "[[" ++ lit "a" ++ lit "|" ++ [] ++ lit "]]") <> [].
Proof. repeat split. vm_compute. discriminate. Qed.

(** C9, amended: for a target and a display text that are not empty and
    hold no closing bracket (and, for the target, no bar), the link with a
    display text is replaced by the display text and the link without one by
    its target, wherever the link stands after text free of opening
    brackets. *)
Theorem link_flattened (pre target display post : str) :
  target <> [] -> display <> [] ->
  contains 93 target = false -> contains 124 target = false ->
  contains 93 display = false -> contains 91 pre = false ->
  flatten_links (pre ++ lit "[[" ++ target ++ lit "|" ++ display ++ lit "]]" ++ post)
    = pre ++ display ++ flatten_links post /\
  flatten_links (pre ++ lit "[[" ++ target ++ lit "]]" ++ post)
    = pre ++ target ++ flatten_links post.
Proof.
  intros Ht Hd Ht93 Ht124 Hd93 Hpre.
  apply not_contains_forallb in Ht93, Ht124, Hd93.
  assert (Htb : forallb not_bar_rbracket target = true).
  { clear Ht. induction target as [|c t IH]; [reflexivity|].
    cbn in *. apply andb_true_iff in Ht93 as [H1 Ht93].
    apply andb_true_iff in Ht124 as [H2 Ht124].
    unfold not_bar_rbracket at 1. rewrite negb_orb, H1, H2. cbn. auto. }
  change (lit "[[") with [91; 91]. change (lit "]]") with [93; 93].
  change (lit "|") with [124].
  split; rewrite flatten_links_plain_prefix by assumption;
    unfold flatten_links, re_sub; f_equal.
  - pose proof (re_link_display None target display post Ht Hd Htb Hd93) as E.
    replace ([91; 91] ++ target ++ [124] ++ display ++ [93; 93] ++ post)
      with (91 :: (91 :: target ++ 124 :: display ++ [93; 93]) ++ post).
    2:{ cbn [app]. now rewrite <- !app_assoc, <- !app_comm_cons, <- !app_assoc. }
    rewrite (sub_from_match _ _ _ _ _ display).
    + f_equal. apply sub_from_ignoring_prev. reflexivity.
    + replace (91 :: (91 :: target ++ 124 :: display ++ [93; 93]) ++ post)
        with (91 :: 91 :: target ++ 124 :: display ++ 93 :: 93 :: post).
      2:{ cbn [app]. now rewrite <- !app_assoc, <- !app_comm_cons, <- !app_assoc. }
      rewrite E. f_equal. f_equal.
      cbn [length]. rewrite !length_app. cbn [length]. rewrite !length_app.
      cbn [length]. lia.
  - pose proof (re_link_target None target post Ht Htb Ht93) as E.
    replace ([91; 91] ++ target ++ [93; 93] ++ post)
      with (91 :: (91 :: target ++ [93; 93]) ++ post).
    2:{ cbn [app]. now rewrite <- !app_assoc. }
    rewrite (sub_from_match _ _ _ _ _ target).
    + f_equal. apply sub_from_ignoring_prev. reflexivity.
    + cbn [app]. rewrite <- !app_assoc. cbn [app].
      rewrite E. f_equal. f_equal.
      cbn [length]. rewrite !length_app. cbn [length]. lia.
Qed.

Lemma link_flattened_witness :
  flatten_links (lit "[[chaos|Chaos]]") = lit "Chaos" /\
  flatten_links (lit "[[chaos]]") = lit "chaos".
Proof.
  pose proof (link_flattened [] (lit "chaos") (lit "Chaos") []) as H.
  cbn [app] in H. rewrite !app_nil_r in H.
  apply H; vm_compute; first [reflexivity | discriminate].
Defined.

(** ** The example of the scrubber *)

(** C8 as stated fails: whatever the character tables, the example text is
    not scrubbed to [Coucou]. *)
Lemma scrub_example_not_coucou :
  ~ exists unicode_upper unicode_isalnum,
      scrub unicode_upper unicode_isalnum (lit "  , ,  coucou ()  ,")
      = lit "Coucou".
Proof. intros (up & al & H). vm_compute in H. discriminate. Qed.

(** C8, amended: the example text is scrubbed to [, coucou] (no rule removes
    a leading comma, and the first character is then no letter); scrubbing
    that result again, or the text [Coucou], changes nothing. *)
Theorem scrub_example :
  forall unicode_upper unicode_isalnum,
    scrub unicode_upper unicode_isalnum (lit "  , ,  coucou ()  ,")
      = lit ", coucou" /\
    scrub unicode_upper unicode_isalnum (lit ", coucou") = lit ", coucou" /\
    scrub unicode_upper unicode_isalnum (lit "Coucou") = lit "Coucou".
Proof. intros up al. repeat split; vm_compute; reflexivity. Qed.
(** ** Texts the scrubber leaves unchanged *)

Lemma sub_from_quiet m (s : str) :
  forall prev, quiet m prev s -> sub_from m 0 prev s = s.
Proof.
  induction s as [|c s IH]; intros prev; [reflexivity|].
  intros [E H]. cbn [sub_from]. now rewrite E, IH.
Qed.

Lemma quiet_by (Q : str -> Prop) m :
  (forall c s, Q (c :: s) -> Q s) ->
  (forall prev c s, Q (c :: s) -> m prev (c :: s) = None) ->
  forall s prev, Q s -> quiet m prev s.
Proof.
  intros Hsuf Hnone s. induction s as [|c s IH]; intros prev HQ; [exact I|].
  split; [now apply Hnone|]. apply IH. eapply Hsuf, HQ.
Qed.

Lemma occurs_cons pat (c : char) (s : str) :
  occurs pat (c :: s) = false ->
  strip_prefix pat (c :: s) = None /\ occurs pat s = false.
Proof. cbn [occurs]. destruct (strip_prefix pat (c :: s)); [discriminate|auto]. Qed.

Lemma contains_cons (k c : char) (s : str) :
  contains k (c :: s) = false -> (c =? k) = false /\ contains k s = false.
Proof.
  unfold contains. cbn [existsb]. rewrite (N.eqb_sym k c).
  now intros [? ?]%orb_false_iff.
Qed.

(** Case analysis on a character down to the literals a matcher tests. *)
Tactic Notation "by_head" ident(c) tactic3(tac) :=
  destruct c as [|c]; [tac|]; repeat (destruct c as [c|c|]; try tac).

Lemma last_is_cons p (c : char) (s : str) :
  s <> [] -> last_is p (c :: s) = last_is p s.
Proof. unfold last_is. now destruct s. Qed.

Lemma last_is_suffix p (c : char) (s : str) :
  last_is p (c :: s) = false -> last_is p s = false.
Proof.
  destruct s as [|d s]; [reflexivity|]. now rewrite last_is_cons.
Qed.

Lemma last_is_app p (a : str) (x : char) (b : str) :
  last_is p (a ++ x :: b) = last_is p (x :: b).
Proof.
  unfold last_is. rewrite last_app.
  destruct (last (x :: b)) eqn:E; [reflexivity|]. now apply last_None in E.
Qed.

Lemma last_is_all p (x : char) (b : str) :
  forallb p (x :: b) = true -> last_is p (x :: b) = true.
Proof.
  revert x; induction b as [|y b IH]; intros x; cbn [forallb].
  - unfold last_is. cbn. now intros [-> _]%andb_true_iff.
  - intros [_ H]%andb_true_iff. rewrite last_is_cons by easy. now apply IH.
Qed.

(** In a text with single plain spaces, a run of whitespace is one space at
    most. *)
Lemma space_run_short (s ws r : str) :
  forallb plain_space s = true -> occurs (lit "  ") s = false ->
  span py_isspace s = (ws, r) -> ws = [] \/ ws = [32].
Proof.
  intros Hp Ho E. destruct (span_spec _ _ _ _ E) as (-> & Hws & _).
  assert (Hsp : forall w, py_isspace w = true -> plain_space w = true -> w = 32).
  { intros w H1 H2. unfold plain_space in H2. rewrite H1 in H2.
    now apply N.eqb_eq in H2. }
  destruct ws as [|w1 [|w2 ws]]; [now left| |].
  - right. cbn in Hws, Hp.
    apply andb_true_iff in Hws as [H1 _]. apply andb_true_iff in Hp as [H2 _].
    now rewrite (Hsp w1 H1 H2).
  - exfalso. cbn [forallb app] in Hws, Hp.
    apply andb_true_iff in Hws as [H1 [H1' _]%andb_true_iff].
    apply andb_true_iff in Hp as [H2 [H2' _]%andb_true_iff].
    rewrite (Hsp w1 H1 H2), (Hsp w2 H1' H2') in Ho. cbn in Ho. discriminate.
Qed.

Lemma dropwhile_head p (s : str) : head_is p s = false -> dropwhile p s = s.
Proof. destruct s as [|c s]; [reflexivity|]. unfold head_is. cbn. now intros ->. Qed.

Lemma strip_clean (s : str) :
  head_is py_isspace s = false -> last_is py_isspace s = false -> strip s = s.
Proof.
  intros Hh Hl. unfold strip, strip_chars.
  rewrite (dropwhile_head _ _ Hh), dropwhile_head, reverse_involutive; [reflexivity|].
  unfold head_is. now rewrite head_reverse.
Qed.

Section CleanTexts.

Variable unicode_upper : char -> str.
Variable unicode_isalnum : char -> bool.

Lemma re_quotes_quiet (s : str) prev :
  occurs (lit "''") s = false -> quiet re_quotes prev s.
Proof.
  revert s prev. apply (quiet_by (fun s => occurs (lit "''") s = false)).
  - intros c s H. now apply occurs_cons in H.
  - intros prev c s [H _]%occurs_cons. change (lit "''") with [39; 39] in H.
    destruct (c =? 39) eqn:E.
    + apply N.eqb_eq in E as ->. destruct s as [|c1 s]; [reflexivity|].
      destruct (c1 =? 39) eqn:E1.
      * apply N.eqb_eq in E1 as ->. discriminate.
      * by_head c1 reflexivity. discriminate.
    + destruct s as [|c1 s]; by_head c reflexivity; discriminate.
Qed.

Lemma no_lt_quiet (m : matcher) :
  (forall prev c s, (c =? 60) = false -> m prev (c :: s) = None) ->
  forall (s : str) prev, contains 60 s = false -> quiet m prev s.
Proof.
  intros Hm. apply (quiet_by (fun s => contains 60 s = false)).
  - intros c s H. now apply contains_cons in H.
  - intros prev c s [H _]%contains_cons. now apply Hm.
Qed.

Lemma re_ref_span_head prev (c : char) (s : str) :
  (c =? 60) = false -> re_ref_span prev (c :: s) = None.
Proof.
  intros E. unfold re_ref_span. change (lit "<ref") with [60; 114; 101; 102].
  cbn [strip_prefix]. now rewrite (N.eqb_sym 60 c), E.
Qed.

Lemma re_ref_self_head prev (c : char) (s : str) :
  (c =? 60) = false -> re_ref_self prev (c :: s) = None.
Proof.
  intros E. unfold re_ref_self. change (lit "<ref") with [60; 114; 101; 102].
  cbn [strip_prefix]. now rewrite (N.eqb_sym 60 c), E.
Qed.

Lemma re_tag_head prev (c : char) (s : str) :
  (c =? 60) = false -> re_tag prev (c :: s) = None.
Proof. intros E. by_head c reflexivity. discriminate. Qed.

Lemma re_code_quiet code phrase (s : str) prev :
  occurs code s = false -> quiet (re_code unicode_isalnum code phrase) prev s.
Proof.
  revert s prev. apply (quiet_by (fun s => occurs code s = false)).
  - intros c s H. now apply occurs_cons in H.
  - intros prev c s [H _]%occurs_cons.
    unfold re_code. now rewrite H.
Qed.

Lemma re_displaced_quiet (s : str) prev :
  occurs (lit "Displaced native") s = false -> quiet re_displaced prev s.
Proof.
  revert s prev. apply (quiet_by (fun s => occurs (lit "Displaced native") s = false)).
  - intros c s H. now apply occurs_cons in H.
  - intros prev c s [H _]%occurs_cons. unfold re_displaced. now rewrite H.
Qed.

Lemma re_spaces_clean (s : str) :
  forall prev,
  forallb plain_space s = true -> occurs (lit "  ") s = false ->
  last_is py_isspace s = false ->
  sub_from re_spaces 0 prev s = s.
Proof.
  induction s as [|c s IH]; intros prev Hp Ho Hl; [reflexivity|].
  pose proof Hp as Hp'. cbn [forallb] in Hp'.
  apply andb_true_iff in Hp' as [Hc Hps].
  destruct (occurs_cons _ _ _ Ho) as [_ Hos].
  pose proof (last_is_suffix _ _ _ Hl) as Hls.
  cbn [sub_from]. unfold re_spaces at 1.
  destruct (span py_isspace (c :: s)) as [ws r] eqn:E.
  destruct (space_run_short _ _ _ Hp Ho E) as [->| ->].
  - now rewrite IH.
  - cbn [length Init.Nat.pred app]. destruct (span_spec _ _ _ _ E) as ([= -> ->] & _).
    now rewrite IH.
Qed.

Lemma re_leading_colon_clean (s : str) :
  head_is (N.eqb 58) s = false -> re_sub re_leading_colon s = s.
Proof.
  intros H. apply sub_from_quiet. destruct s as [|c s]; [exact I|]. split.
  - change (head_is (N.eqb 58) (c :: s)) with (58 =? c) in H.
    rewrite N.eqb_sym in H. by_head c reflexivity. discriminate.
  - clear H. generalize c. induction s as [|d s IH]; intros c'; [exact I|].
    split; [reflexivity|apply IH].
Qed.

Lemma spaced_suffix (c : char) (s : str) : spaced (c :: s) -> spaced s.
Proof.
  intros [Hp Ho]. split.
  - cbn in Hp. now apply andb_true_iff in Hp.
  - now apply occurs_cons in Ho.
Qed.

Lemma re_empty_parens_quiet (s : str) prev :
  spaced s -> occurs (lit "()") s = false -> occurs (lit "( )") s = false ->
  quiet re_empty_parens prev s.
Proof.
  revert s prev.
  enough (H : forall s prev,
            spaced s /\ occurs (lit "()") s = false /\
            occurs (lit "( )") s = false ->
            quiet re_empty_parens prev s) by (intros; apply H; auto).
  apply (quiet_by (fun s => spaced s /\ occurs (lit "()") s = false /\
                            occurs (lit "( )") s = false)).
  - intros c s (H1 & H2 & H3). split; [eapply spaced_suffix, H1|].
    split; [now apply occurs_cons in H2|now apply occurs_cons in H3].
  - intros prev c s (H1 & [H2 _]%occurs_cons & [H3 _]%occurs_cons).
    apply spaced_suffix in H1 as [Hp Ho].
    destruct (c =? 40) eqn:E; [|by_head c reflexivity; discriminate].
    apply N.eqb_eq in E as ->. cbn [re_empty_parens].
    destruct (span py_isspace s) as [ws r] eqn:Es.
    destruct (space_run_short _ _ _ Hp Ho Es) as [->| ->];
      destruct (span_spec _ _ _ _ Es) as (-> & _);
      destruct r as [|x r]; try reflexivity;
      (destruct (x =? 41) eqn:Ex;
       [apply N.eqb_eq in Ex as ->; discriminate
       |by_head x reflexivity; discriminate]).
Qed.

Lemma re_double_comma_quiet (s : str) prev :
  spaced s -> occurs (lit ",,") s = false -> occurs (lit ", ,") s = false ->
  quiet re_double_comma prev s.
Proof.
  revert s prev.
  enough (H : forall s prev,
            spaced s /\ occurs (lit ",,") s = false /\
            occurs (lit ", ,") s = false ->
            quiet re_double_comma prev s) by (intros; apply H; auto).
  apply (quiet_by (fun s => spaced s /\ occurs (lit ",,") s = false /\
                            occurs (lit ", ,") s = false)).
  - intros c s (H1 & H2 & H3). split; [eapply spaced_suffix, H1|].
    split; [now apply occurs_cons in H2|now apply occurs_cons in H3].
  - intros prev c s (H1 & [H2 _]%occurs_cons & [H3 _]%occurs_cons).
    apply spaced_suffix in H1 as [Hp Ho].
    destruct (c =? 44) eqn:E; [|by_head c reflexivity; discriminate].
    apply N.eqb_eq in E as ->. cbn [re_double_comma].
    destruct (span py_isspace s) as [ws r] eqn:Es.
    destruct (space_run_short _ _ _ Hp Ho Es) as [->| ->];
      destruct (span_spec _ _ _ _ Es) as (-> & _);
      destruct r as [|x r]; try reflexivity;
      (destruct (x =? 44) eqn:Ex;
       [apply N.eqb_eq in Ex as ->; discriminate
       |by_head x reflexivity; discriminate]).
Qed.

Lemma re_trailing_quiet (s : str) prev :
  last_is py_isspace s = false -> last_is is_separator s = false ->
  quiet re_trailing prev s.
Proof.
  revert s prev.
  enough (H : forall s prev,
            last_is py_isspace s = false /\ last_is is_separator s = false ->
            quiet re_trailing prev s) by (intros; apply H; auto).
  apply (quiet_by (fun s => last_is py_isspace s = false /\
                            last_is is_separator s = false)).
  - intros c s [H1 H2]. split; eapply last_is_suffix; eassumption.
  - intros prev c s [H1 H2]. unfold re_trailing.
    destruct (span py_isspace (c :: s)) as [ws r] eqn:E.
    destruct (span_spec _ _ _ _ E) as (Hs & _ & _).
    destruct r as [|x t]; [reflexivity|].
    change ((x =? 44) || (x =? 59)) with (is_separator x).
    destruct (is_separator x) eqn:Ex; [|reflexivity].
    destruct (span py_isspace t) as [ws' r'] eqn:E'.
    destruct (span_spec _ _ _ _ E') as (-> & Hws' & _).
    destruct r' as [|y r']; [exfalso|reflexivity].
    rewrite Hs, app_nil_r, last_is_app in H1, H2.
    destruct ws' as [|w ws'].
    + unfold last_is in H2. cbn in H2. congruence.
    + rewrite last_is_cons in H1 by easy.
      rewrite (last_is_all _ _ _ Hws') in H1. discriminate.
Qed.

Lemma scrub_clean (s : str) :
  clean unicode_upper s = true -> scrub unicode_upper unicode_isalnum s = s.
Proof.
  unfold clean. rewrite !andb_true_iff, !negb_true_iff.
  intros ((((((((((((((((Hq & Hlt) & Hc1) & Hc2) & Hc3) & Hd) & Hp) & Hss)
                      & Hh) & Hl) & Hcolon) & Hp1) & Hp2) & Hcc1) & Hcc2)
            & Hsep) & Hcap).
  apply eqb_str_eq in Hcap.
  unfold scrub, re_sub.
  rewrite (sub_from_quiet _ _ _ (re_quotes_quiet s None Hq)).
  rewrite (sub_from_quiet _ _ _ (no_lt_quiet _ re_ref_span_head s None Hlt)).
  rewrite (sub_from_quiet _ _ _ (no_lt_quiet _ re_ref_self_head s None Hlt)).
  rewrite (sub_from_quiet _ _ _ (no_lt_quiet _ re_tag_head s None Hlt)).
  rewrite (sub_from_quiet _ _ _ (re_code_quiet _ _ s None Hc1)).
  rewrite (sub_from_quiet _ _ _ (re_code_quiet _ _ s None Hc2)).
  rewrite (sub_from_quiet _ _ _ (re_code_quiet _ _ s None Hc3)).
  rewrite (sub_from_quiet _ _ _ (re_displaced_quiet s None Hd)).
  rewrite (re_spaces_clean s None Hp Hss Hl), (strip_clean s Hh Hl).
  pose proof (re_leading_colon_clean s Hcolon) as Hlc. unfold re_sub in Hlc.
  rewrite Hlc.
  rewrite (sub_from_quiet _ _ _ (re_empty_parens_quiet s None (conj Hp Hss) Hp1 Hp2)).
  rewrite (sub_from_quiet _ _ _ (re_double_comma_quiet s None (conj Hp Hss) Hcc1 Hcc2)).
  rewrite (re_spaces_clean s None Hp Hss Hl), (strip_clean s Hh Hl).
  rewrite (sub_from_quiet _ _ _ (re_trailing_quiet s None Hl Hsep)).
  exact Hcap.
Qed.

End CleanTexts.

(** C2 as stated fails: whatever the character tables, scrubbing [(())]
    gives [()], and scrubbing that again gives the empty text. *)
Lemma scrub_not_idempotent :
  ~ exists unicode_upper unicode_isalnum,
      scrub unicode_upper unicode_isalnum
        (scrub unicode_upper unicode_isalnum (lit "(())"))
      = scrub unicode_upper unicode_isalnum (lit "(())").
Proof. intros (up & al & H). vm_compute in H. discriminate. Qed.

(** C2, amended: the scrubber leaves every clean text unchanged, so scrubbing
    its own output again is a no-op whenever that output is clean; a rule
    may, however, leave or bring together text that an earlier rule or the
    same rule would rewrite, and then a second application differs. *)
Theorem scrub_clean_unchanged unicode_upper unicode_isalnum :
  (forall s, clean unicode_upper s = true ->
     scrub unicode_upper unicode_isalnum s = s) /\
  (forall s, clean unicode_upper (scrub unicode_upper unicode_isalnum s) = true ->
     scrub unicode_upper unicode_isalnum (scrub unicode_upper unicode_isalnum s)
     = scrub unicode_upper unicode_isalnum s).
Proof.
  split; intros s H; now apply scrub_clean.
Qed.

Lemma scrub_clean_unchanged_witness :
  scrub ascii_only_upper ascii_only_isalnum
    (lit "Du latin chaos, du grec ancien χάος (kháos) ; voir 'la'.")
  = lit "Du latin chaos, du grec ancien χάος (kháos) ; voir 'la'." /\
  scrub ascii_only_upper ascii_only_isalnum
    (scrub ascii_only_upper ascii_only_isalnum (lit "  , ,  coucou ()  ,"))
  = scrub ascii_only_upper ascii_only_isalnum (lit "  , ,  coucou ()  ,").
Proof.
  split.
  - apply (proj1 (scrub_clean_unchanged ascii_only_upper ascii_only_isalnum)).
    vm_compute. reflexivity.
  - apply (proj2 (scrub_clean_unchanged ascii_only_upper ascii_only_isalnum)).
    vm_compute. reflexivity.
Defined.

(** ** Short results are absent *)

(** C4: the pipeline always returns; a string it returns is longer than ten
    characters; whenever the scrubbed text of the section has at most ten
    characters (in particular when it is empty) the result is the absence
    value. *)
Theorem short_result_is_absent unicode_upper unicode_isalnum ignorecase_eq
    (wikitext : str) :
  exists result,
    fetch_etymology_parse_api unicode_upper unicode_isalnum ignorecase_eq wikitext
      = Some result /\
    (forall text, result = Some text -> (10 < length text)%nat) /\
    (forall group1 resolved passes,
       find_section ignorecase_eq wikitext = Some group1 ->
       resolve_loop (resolve_fuel (strip group1)) (strip group1)
         = Some (Ok (resolved, passes)) ->
       (length (scrubbed unicode_upper unicode_isalnum resolved) <= 10)%nat ->
       result = None).
Proof.
  unfold fetch_etymology_parse_api.
  destruct (find_section ignorecase_eq wikitext) as [group1|].
  2:{ exists None. split; [reflexivity|]. split; [discriminate|reflexivity]. }
  destruct (resolve_fuel_enough (strip group1)) as (r & n & Hrn). rewrite Hrn.
  eexists. split; [reflexivity|]. unfold quality_gate. split.
  - intros text.
    destruct (nonempty _ && _) eqn:E; [|discriminate].
    intros [= <-]. apply andb_true_iff in E as [_ E]. now apply Nat.ltb_lt in E.
  - intros g resolved passes [= <-] Hloop Hlen. rewrite Hrn in Hloop. simplify_eq.
    destruct (nonempty _ && _) eqn:E; [|reflexivity].
    apply andb_true_iff in E as [_ E]. apply Nat.ltb_lt in E. lia.
Qed.

Lemma short_result_is_absent_witness :
  fetch_etymology_parse_api ascii_only_upper ascii_only_isalnum ascii_ignorecase_eq
    (lit "=== {{S|étymologie}} ===
: {{étyl|la}}.
=== {{S|nom}} ===") = Some None.
Proof.
  destruct (short_result_is_absent ascii_only_upper ascii_only_isalnum
              ascii_ignorecase_eq
              (lit "=== {{S|étymologie}} ===
: {{étyl|la}}.
=== {{S|nom}} ===")) as (result & E & _ & H).
  rewrite E. f_equal.
  apply (H (lit ": {{étyl|la}}.") (lit ": *latin*.") 2%nat);
    vm_compute; [reflexivity|reflexivity|lia].
Defined.

(** * Further properties *)

(** ** What the resolution loop leaves *)

Lemma resolve_pass_removes (s : str) :
  forall pre w post s',
    s = pre ++ [123; 123] ++ w ++ [125; 125] ++ post ->
    brace_free w = true ->
    resolve_pass s = Ok s' ->
    (count_braces s' + 4 <= count_braces s)%nat.
Proof.
  induction s as [|c s E IH|w0 rest Hw0 _] using resolve_pass_ind;
    intros pre w post s' Hs Hw Hp.
  - destruct pre; discriminate.
  - destruct pre as [|x pre].
    + cbn [app] in Hs. pose proof (re_template_match w post Hw) as Em.
      cbn [app] in Em. rewrite <- Hs in Em. congruence.
    + cbn [app] in Hs. injection Hs as -> Hs.
      rewrite (resolve_pass_copy _ _ E) in Hp.
      destruct (resolve_pass s) as [s1|] eqn:E1; [|discriminate].
      cbn [mbind result_bind] in Hp. injection Hp as <-.
      specialize (IH _ _ _ _ Hs Hw eq_refl). cbn [count_braces]. lia.
  - rewrite (resolve_pass_match _ _ Hw0) in Hp.
    destruct (parse_wiki_template_total ([123; 123] ++ w0 ++ [125; 125]))
      as (frag & Hfrag & Hbf).
    rewrite (strip_braces_delimited _ Hw0) in Hbf. specialize (Hbf Hw0).
    destruct (resolve_pass_total rest) as (s1 & Hr & _ & Hle).
    rewrite Hfrag, Hr in Hp. cbn [mbind result_bind] in Hp. injection Hp as <-.
    rewrite !count_braces_app, (count_braces_free _ Hbf), (count_braces_free _ Hw0).
    cbn. lia.
Qed.

Lemma resolve_loop_fixed (fuel : nat) :
  forall s r n,
    resolve_loop fuel s = Some (Ok (r, n)) ->
    resolve_pass r = Ok r /\ (count_braces r <= count_braces s)%nat.
Proof.
  induction fuel as [|fuel IH]; intros s r n H; [discriminate|].
  cbn [resolve_loop] in H.
  destruct (resolve_pass_total s) as (s' & Hs & _ & Hle). rewrite Hs in H.
  destruct (eqb_str s s') eqn:E.
  - apply eqb_str_eq in E as <-. injection H as <- <-. auto.
  - destruct (resolve_loop fuel s') as [[[r' n']|e]|] eqn:E'; try discriminate.
    injection H as <- <-. destruct (IH _ _ _ E') as [Hf Hc]. split; [exact Hf|lia].
Qed.

(** X1: on every text the loop ends with a text that one more pass leaves
    as it is, that holds no template free of nested braces any more, and
    that has no more braces than the text it started from. *)
Theorem resolved_text_has_no_template (s : str) :
  exists r n,
    (forall fuel, (n <= fuel)%nat -> resolve_loop fuel s = Some (Ok (r, n))) /\
    resolve_pass r = Ok r /\
    (count_braces r <= count_braces s)%nat /\
    forall pre w post,
      brace_free w = true -> r <> pre ++ lit "{{" ++ w ++ lit "}}" ++ post.
Proof.
  destruct (resolve_loop_bounded s) as (r & n & _ & _ & _ & Hr).
  destruct (resolve_loop_fixed n s r n (Hr n (le_n _))) as [Hf Hc].
  exists r, n. repeat split; auto.
  intros pre w post Hw Heq.
  pose proof (resolve_pass_removes r pre w post r Heq Hw Hf). lia.
Qed.

Lemma resolve_loop_render_free (d : nat) :
  forall t, plain_chars t = true -> nesting_depth t = d ->
  exists r,
    brace_free r = true /\
    forall fuel, (d < fuel)%nat ->
      resolve_loop fuel (render t) = Some (Ok (r, S d)).
Proof.
  induction d as [|d IH]; intros t Hp Hd.
  - destruct (resolve_pass_render t Hp [] [] eq_refl) as (t' & _ & _ & Hz & _ & _ & Hr).
    rewrite (Hz Hd), !app_nil_r in Hr.
    exists (render t). split; [now apply render_flat|].
    intros [|fuel] Hf; [lia|]. cbn [resolve_loop].
    now rewrite Hr, eqb_str_refl.
  - destruct (resolve_pass_render t Hp [] [] eq_refl)
      as (t' & Hp' & Hd' & _ & _ & Hlt & Hr).
    rewrite !app_nil_r in Hr. specialize (Hlt ltac:(lia)).
    destruct (IH t' Hp' ltac:(lia)) as (r & Hbf & Hloop).
    exists r. split; [exact Hbf|].
    intros [|fuel] Hf; [lia|]. cbn [resolve_loop]. rewrite Hr.
    destruct (eqb_str (render t) (render t')) eqn:E.
    + apply eqb_str_eq in E. rewrite E in Hlt. lia.
    + rewrite Hloop by lia. reflexivity.
Qed.

(** X2: on a text whose templates are properly nested, the loop ends with a
    text that holds no brace at all: every template is resolved. *)
Theorem nested_templates_all_resolved (t : template_text) :
  plain_chars t = true ->
  exists r n,
    brace_free r = true /\
    forall fuel, (n <= fuel)%nat ->
      resolve_loop fuel (render t) = Some (Ok (r, n)).
Proof.
  intros Hp.
  destruct (resolve_loop_render_free (nesting_depth t) t Hp eq_refl) as (r & Hbf & Hr).
  exists r, (S (nesting_depth t)). split; [exact Hbf|].
  intros fuel Hf. apply Hr. lia.
Qed.

Lemma nested_templates_all_resolved_witness :
  exists r n,
    brace_free r = true /\
    forall fuel, (n <= fuel)%nat ->
      resolve_loop fuel
        (render (TTemplate (chars (lit "m|la|") (TTemplate (chars (lit "étyl|grc") TEnd)
                                                  (chars (lit "|x") TEnd))) TEnd))
      = Some (Ok (r, n)).
Proof.
  apply (nested_templates_all_resolved
           (TTemplate (chars (lit "m|la|") (TTemplate (chars (lit "étyl|grc") TEnd)
                                              (chars (lit "|x") TEnd))) TEnd)).
  vm_compute. reflexivity.
Defined.

(** ** Whitespace after cleaning *)

Lemma dropwhile_split p (s : str) :
  exists a, s = a ++ dropwhile p s /\ forallb p a = true.
Proof.
  induction s as [|c s (a & Hs & Ha)]; [now exists []|].
  cbn [dropwhile]. destruct (p c) eqn:E.
  - exists (c :: a). cbn. rewrite E, Ha. split; [now f_equal|reflexivity].
  - now exists [].
Qed.

Lemma head_is_dropwhile p (s : str) : head_is p (dropwhile p s) = false.
Proof.
  induction s as [|c s IH]; [reflexivity|].
  cbn [dropwhile]. destruct (p c) eqn:E; [exact IH|]. unfold head_is. cbn. exact E.
Qed.

Lemma forallb_reverse (p : char -> bool) (s : str) :
  forallb p (reverse s) = forallb p s.
Proof.
  induction s as [|c s IH]; [reflexivity|].
  rewrite reverse_cons, forallb_app, IH. cbn. rewrite andb_true_r. apply andb_comm.
Qed.

Lemma strip_chars_split p (s : str) :
  exists a b, s = a ++ strip_chars p s ++ b /\
              forallb p a = true /\ forallb p b = true.
Proof.
  unfold strip_chars.
  destruct (dropwhile_split p s) as (a & Hs & Ha).
  destruct (dropwhile_split p (reverse (dropwhile p s))) as (b & Hd & Hb).
  exists a, (reverse b). split; [|split; [exact Ha|]].
  - rewrite <- reverse_app, <- Hd, reverse_involutive. exact Hs.
  - now rewrite forallb_reverse.
Qed.

Lemma strip_chars_ends p (s : str) :
  head_is p (strip_chars p s) = false /\ last_is p (strip_chars p s) = false.
Proof.
  split.
  - destruct (strip_chars_split p s) as (a & b & _ & _ & _).
    unfold strip_chars in *.
    pose proof (head_is_dropwhile p s) as Hd.
    destruct (dropwhile_split p (reverse (dropwhile p s))) as (e & He & _).
    apply (f_equal reverse) in He. rewrite reverse_involutive, reverse_app in He.
    destruct (reverse (dropwhile p (reverse (dropwhile p s)))) as [|x m];
      [reflexivity|].
    rewrite He in Hd. exact Hd.
  - unfold strip_chars, last_is. rewrite last_reverse. apply head_is_dropwhile.
Qed.

Lemma occurs_here pat (s r : str) :
  strip_prefix pat s = Some r -> occurs pat s = true.
Proof. intros E. destruct s; cbn [occurs]; now rewrite E. Qed.

Lemma strip_prefix_app pat (s b r : str) :
  strip_prefix pat s = Some r -> strip_prefix pat (s ++ b) = Some (r ++ b).
Proof.
  revert s; induction pat as [|x pat IH]; intros s; cbn [strip_prefix].
  - now intros [= ->].
  - destruct s as [|y s]; [discriminate|]. cbn [app strip_prefix].
    destruct (x =? y); [apply IH|discriminate].
Qed.

Lemma occurs_app_l pat (s b : str) :
  occurs pat (s ++ b) = false -> occurs pat s = false.
Proof.
  induction s as [|c s IH]; intros H.
  - destruct (strip_prefix pat []) as [r|] eqn:E; [|cbn [occurs]; now rewrite E].
    apply (strip_prefix_app _ _ b) in E. apply occurs_here in E. congruence.
  - cbn [app] in H. destruct (occurs_cons _ _ _ H) as [Hn Hs].
    cbn [occurs]. destruct (strip_prefix pat (c :: s)) as [r|] eqn:E.
    + apply (strip_prefix_app _ _ b) in E. cbn [app] in E. congruence.
    + now apply IH.
Qed.

Lemma occurs_app_r pat (a s : str) :
  occurs pat (a ++ s) = false -> occurs pat s = false.
Proof.
  induction a as [|c a IH]; [easy|]. cbn [app]. intros H.
  apply IH. now apply occurs_cons in H.
Qed.

Lemma forallb_strip_chars p q (s : str) :
  forallb q s = true -> forallb q (strip_chars p s) = true.
Proof.
  destruct (strip_chars_split p s) as (a & b & Hs & _). intros H.
  rewrite Hs, !forallb_app in H.
  now apply andb_true_iff in H as [_ [H _]%andb_true_iff].
Qed.

Lemma re_spaces_spaced (n : nat) :
  forall (s : str) prev, (length s <= n)%nat ->
    spaced (sub_from re_spaces 0 prev s) /\
    (head_is py_isspace s = false ->
     head_is py_isspace (sub_from re_spaces 0 prev s) = false).
Proof.
  induction n as [|n IH]; intros s prev Hn.
  - destruct s; [|cbn in Hn; lia]. repeat split.
  - destruct s as [|c s]; [repeat split|].
    cbn [sub_from].
    destruct (span py_isspace (c :: s)) as [ws r] eqn:E.
    assert (Em : re_spaces prev (c :: s)
                 = match ws with
                   | _ :: _ => Some (length ws, [32])
                   | [] => None
                   end) by (unfold re_spaces; now rewrite E).
    rewrite Em. clear Em.
    destruct (span_spec _ _ _ _ E) as (Hs & Hws & Hr).
    destruct ws as [|w ws].
    + cbn [app] in Hs. subst r.
      destruct (IH s (Some c) ltac:(cbn in Hn; lia)) as [[Hp Ho] _].
      split; [split|].
      * cbn [forallb]. unfold plain_space at 1. rewrite Hr. exact Hp.
      * cbn [occurs]. change (lit "  ") with [32; 32]. cbn [strip_prefix].
        destruct (32 =? c) eqn:E32; [|exact Ho].
        apply N.eqb_eq in E32. subst c. discriminate.
      * intros _. unfold head_is. cbn. exact Hr.
    + cbn [app] in Hs. injection Hs as -> ->.
      cbn [length Init.Nat.pred app]. rewrite sub_from_skip.
      assert (Hhr : head_is py_isspace r = false).
      { destruct r; [reflexivity|exact Hr]. }
      destruct (IH r (prev_after (Some w) ws)) as [[Hp Ho] Hh].
      { cbn [length] in Hn. rewrite length_app in Hn. lia. }
      specialize (Hh Hhr).
      split; [split|].
      * cbn [forallb]. rewrite Hp. reflexivity.
      * cbn [occurs]. change (lit "  ") with [32; 32]. cbn [strip_prefix].
        change (32 =? 32) with true. cbv iota.
        destruct (sub_from re_spaces 0 (prev_after (Some w) ws) r) as [|y o] eqn:Eo;
          [reflexivity|].
        destruct (32 =? y) eqn:E32; [|exact Ho].
        apply N.eqb_eq in E32. subst y. discriminate.
      * cbn [forallb] in Hws. apply andb_true_iff in Hws as [Hw _].
        unfold head_is at 1. cbn. rewrite Hw. discriminate.
Qed.

Lemma collapse_normalized (s : str) :
  normalized (strip (re_sub re_spaces s)) = true.
Proof.
  destruct (re_spaces_spaced (length s) s None (le_n _)) as [[Hp Ho] _].
  fold (re_sub re_spaces s) in Hp, Ho.
  destruct (strip_chars_ends py_isspace (re_sub re_spaces s)) as [Hh Hl].
  destruct (strip_chars_split py_isspace (re_sub re_spaces s)) as (a & b & Hs & _).
  unfold normalized, strip. rewrite Hh, Hl.
  rewrite (forallb_strip_chars _ _ _ Hp).
  rewrite Hs in Ho. apply occurs_app_r, occurs_app_l in Ho. now rewrite Ho.
Qed.

(** X3: whatever the text, what [clean_html] returns has its whitespace in
    normal form: no whitespace character other than the plain space, no two
    spaces in a row, and no space at either end. *)
Theorem clean_html_normalized (text : str) :
  normalized (clean_html text) = true.
Proof. unfold clean_html. apply collapse_normalized. Qed.

(** ** The old origin section *)

Lemma strip_prefix_Some pat (s r : str) :
  strip_prefix pat s = Some r -> s = pat ++ r.
Proof.
  revert s; induction pat as [|x pat IH]; intros s; cbn [strip_prefix].
  - now intros [= ->].
  - destruct s as [|y s]; [discriminate|].
    destruct (x =? y) eqn:E; [|discriminate].
    apply N.eqb_eq in E as ->. intros H. cbn. f_equal. now apply IH.
Qed.

Lemma strip_prefix_here pat (r : str) : strip_prefix pat (pat ++ r) = Some r.
Proof.
  induction pat as [|x pat IH]; [reflexivity|].
  cbn [app strip_prefix]. now rewrite N.eqb_refl.
Qed.

Lemma until_origin_end_spec (t : str) :
  exists b rest,
    t = b ++ rest /\ length b = until_origin_end t /\ origin_end rest = true.
Proof.
  induction t as [|c t (b & rest & Ht & Hb & Hr)].
  - now exists [], [].
  - cbn [until_origin_end]. destruct (origin_end (c :: t)) eqn:E.
    + now exists [], (c :: t).
    + exists (c :: b), rest. cbn. rewrite Hb. split; [now f_equal|auto].
Qed.

Lemma origin_end_newline (t : str) :
  origin_end t = true -> newline_or_end t = true.
Proof.
  destruct t as [|c t]; [reflexivity|]. cbn [newline_or_end].
  destruct (c =? 10) eqn:E; [reflexivity|].
  by_head c (now destruct t).
Qed.

Lemma re_origin_inv prev (s : str) n r :
  re_origin prev s = Some (n, r) ->
  r = [] /\
  exists a rest,
    s = a ++ rest /\ length a = n /\ a <> [] /\ origin_end rest = true.
Proof.
  unfold re_origin. destruct (span (N.eqb 10) s) as [nl t] eqn:E.
  destruct (span_spec _ _ _ _ E) as (-> & _ & _).
  destruct (strip_prefix (lit "**Origin:**") t) as [t1|] eqn:Et; [|discriminate].
  apply strip_prefix_Some in Et as ->.
  cbn [mbind option_bind]. intros [= <- <-]. split; [reflexivity|].
  destruct (until_origin_end_spec t1) as (b & rest & -> & Hb & Hr).
  exists (nl ++ lit "**Origin:**" ++ b), rest.
  split; [now rewrite <- !app_assoc|]. split; [|split; [|exact Hr]].
  - rewrite !length_app, Hb. change (length (lit "**Origin:**")) with 11%nat. lia.
  - intros H. apply (f_equal length) in H. rewrite !length_app in H.
    change (length (lit "**Origin:**")) with 11%nat in H. cbn in H. lia.
Qed.

Lemma re_origin_prev (s : str) :
  forall prev, sub_from re_origin 0 prev s = re_sub re_origin s.
Proof. intros prev. apply sub_from_ignoring_prev. reflexivity. Qed.

Lemma re_origin_copy (c : char) (s : str) :
  re_origin None (c :: s) = None ->
  re_sub re_origin (c :: s) = c :: re_sub re_origin s.
Proof.
  intros E. unfold re_sub at 1. cbn [sub_from]. rewrite E.
  now rewrite re_origin_prev.
Qed.

Lemma re_origin_match (s : str) n r :
  re_origin None s = Some (n, r) ->
  exists a rest,
    s = a ++ rest /\ a <> [] /\ origin_end rest = true /\
    re_sub re_origin s = re_sub re_origin rest.
Proof.
  intros E. destruct (re_origin_inv _ _ _ _ E) as (-> & a & rest & Hs & Hn & Ha & Hr).
  exists a, rest. repeat split; auto.
  destruct a as [|c a]; [easy|]. subst s. cbn [length] in Hn. subst n.
  cbn [app] in *. unfold re_sub at 1.
  rewrite (sub_from_match _ _ _ _ _ _ E). cbn [app]. apply re_origin_prev.
Qed.

(** Induction along the scan of the substitution. *)
Lemma re_origin_ind (P : str -> Prop) :
  P [] ->
  (forall c s, re_origin None (c :: s) = None ->
               re_sub re_origin (c :: s) = c :: re_sub re_origin s ->
               P s -> P (c :: s)) ->
  (forall s rest, origin_end rest = true ->
                  re_sub re_origin s = re_sub re_origin rest ->
                  P rest -> P s) ->
  forall s, P s.
Proof.
  intros Hnil Hcopy Hmatch s.
  remember (length s) as n eqn:Hn. revert s Hn.
  induction n as [n IH] using lt_wf_ind. intros s ->.
  destruct s as [|c s]; [exact Hnil|].
  destruct (re_origin None (c :: s)) as [[n r]|] eqn:E.
  - destruct (re_origin_match _ _ _ E) as (a & rest & Hs & Ha & Hr & Hsub).
    apply (Hmatch _ rest Hr Hsub). apply (IH (length rest)); [|reflexivity].
    rewrite Hs, length_app. destruct a; [easy|cbn; lia].
  - apply Hcopy; [exact E|now apply re_origin_copy|].
    apply (IH (length s)); [cbn; lia|reflexivity].
Qed.

Lemma re_origin_newline (s : str) :
  newline_or_end s = true -> newline_or_end (re_sub re_origin s) = true.
Proof.
  induction s as [|c s E Ec _|s rest Hr Hsub IH] using re_origin_ind; intros H.
  - reflexivity.
  - rewrite Ec. exact H.
  - rewrite Hsub. apply IH, origin_end_newline, Hr.
Qed.

(** What the result starts with, up to the first newline, the body
    started with. *)
Lemma re_origin_first_line (s : str) :
  forall u x,
    contains 10 u = false -> re_sub re_origin s = u ++ x ->
    exists y, s = u ++ y.
Proof.
  induction s as [|c s E Ec IH|s rest Hr Hsub _] using re_origin_ind;
    intros u x Hu Hs.
  - destruct u; [now exists []|discriminate].
  - rewrite Ec in Hs. destruct u as [|d u]; [now eexists|].
    cbn [app] in Hs. injection Hs as <- Hs.
    apply contains_cons in Hu as [_ Hu].
    destruct (IH _ _ Hu Hs) as (y & ->). now exists y.
  - pose proof (re_origin_newline rest (origin_end_newline _ Hr)) as Hn.
    rewrite <- Hsub, Hs in Hn.
    destruct u as [|d u]; [now eexists|].
    cbn [app newline_or_end] in Hn. apply contains_cons in Hu as [Hd _].
    congruence.
Qed.

Lemma re_origin_here prev (y : str) :
  re_origin prev (lit "**Origin:**" ++ y) <> None.
Proof.
  unfold re_origin.
  change (span (N.eqb 10) (lit "**Origin:**" ++ y))
    with (@nil N, lit "**Origin:**" ++ y).
  cbv iota beta. now rewrite strip_prefix_here.
Qed.

Lemma re_origin_removes_all (s : str) :
  occurs (lit "**Origin:**") (re_sub re_origin s) = false.
Proof.
  induction s as [|c s E Ec IH|s rest Hr Hsub IH] using re_origin_ind.
  - reflexivity.
  - rewrite Ec. cbn [occurs].
    destruct (strip_prefix (lit "**Origin:**") (c :: re_sub re_origin s))
      as [r|] eqn:Ep; [exfalso|exact IH].
    apply strip_prefix_Some in Ep.
    change (lit "**Origin:**") with (42 :: lit "*Origin:**") in Ep.
    cbn [app] in Ep. injection Ep as -> Ep.
    destruct (re_origin_first_line s (lit "*Origin:**") r eq_refl Ep) as (y & ->).
    now apply (re_origin_here None y).
  - now rewrite Hsub.
Qed.

Lemma origin_marker_removed_aux (body : str) :
  occurs (lit "**Origin:**") (strip (re_sub re_origin body)) = false.
Proof.
  unfold strip.
  destruct (strip_chars_split py_isspace (re_sub re_origin body))
    as (a & b & Hs & _).
  pose proof (re_origin_removes_all body) as H. rewrite Hs in H.
  now apply occurs_app_r, occurs_app_l in H.
Qed.

(** X4: whatever the body, what [remove_origin_from_body] returns holds no
    origin marker any more. *)
Theorem origin_marker_removed (body : str) :
  occurs (lit "**Origin:**") (remove_origin_from_body body) = false.
Proof. apply origin_marker_removed_aux. Qed.

Lemma re_origin_quiet (s : str) prev :
  occurs (lit "**Origin:**") s = false -> quiet re_origin prev s.
Proof.
  revert s prev. apply (quiet_by (fun s => occurs (lit "**Origin:**") s = false)).
  - intros c s H. now apply occurs_cons in H.
  - intros prev c s H. unfold re_origin.
    destruct (span (N.eqb 10) (c :: s)) as [nl t] eqn:E.
    destruct (span_spec _ _ _ _ E) as (Hs & _ & _).
    rewrite Hs in H. apply occurs_app_r in H.
    destruct (strip_prefix (lit "**Origin:**") t) as [t1|] eqn:Et; [|reflexivity].
    apply occurs_here in Et. congruence.
Qed.

(** X5: a body that holds no origin marker is only stripped of the
    whitespace at its ends. *)
Theorem body_without_origin_stripped (body : str) :
  occurs (lit "**Origin:**") body = false ->
  remove_origin_from_body body = strip body.
Proof.
  intros H. unfold remove_origin_from_body, re_sub.
  now rewrite (sub_from_quiet _ _ _ (re_origin_quiet body None H)).
Qed.

Lemma body_without_origin_stripped_witness :
  remove_origin_from_body (lit "A leaf. **See also:** [stem](/s/) ")
  = strip (lit "A leaf. **See also:** [stem](/s/) ").
Proof.
  apply (body_without_origin_stripped (lit "A leaf. **See also:** [stem](/s/) ")).
  vm_compute. reflexivity.
Defined.

Lemma strip_strip (s : str) : strip (strip s) = strip s.
Proof.
  destruct (strip_chars_ends py_isspace s) as [Hh Hl]. now apply strip_clean.
Qed.

(** X6: removing the origin section is idempotent. *)
Theorem remove_origin_idempotent (body : str) :
  remove_origin_from_body (remove_origin_from_body body)
  = remove_origin_from_body body.
Proof.
  unfold remove_origin_from_body. unfold re_sub at 1.
  rewrite (sub_from_quiet _ _ _
             (re_origin_quiet _ None (origin_marker_removed_aux body))).
  apply strip_strip.
Qed.

(** ** Front matter *)

Lemma front_matter_delimiter (y body : str) :
  y <> [] ->
  strip_prefix (10 :: lit "---" ++ [10]) (y ++ [10]) = None ->
  strip_prefix (10 :: lit "---" ++ [10]) (y ++ (10 :: lit "---" ++ [10]) ++ body)
  = None.
Proof.
  change (lit "---") with [45; 45; 45]. intros Hy.
  destruct y as [|c [|a [|b [|d y]]]]; [easy| | | |];
    cbn [app strip_prefix]; intros H;
    repeat match goal with
           | |- context [?u =? ?v] => destruct (u =? v) eqn:?
           end; try easy.
  destruct y as [|n y]; cbn [app strip_prefix] in *; [discriminate H|].
  now destruct (10 =? n).
Qed.

Lemma split_at_first_here pat (s rest : str) :
  strip_prefix pat s = Some rest -> split_at_first pat s = Some ([], rest).
Proof. intros E. destruct s; cbn [split_at_first]; now rewrite E. Qed.

Lemma split_at_first_delimiter (y body : str) :
  occurs (10 :: lit "---" ++ [10]) (y ++ [10]) = false ->
  split_at_first (10 :: lit "---" ++ [10])
                 (y ++ (10 :: lit "---" ++ [10]) ++ body)
  = Some (y, body).
Proof.
  induction y as [|c y IH]; intros H.
  - apply split_at_first_here.
    exact (strip_prefix_here (10 :: lit "---" ++ [10]) body).
  - destruct (occurs_cons _ _ _ H) as [Hn Ho].
    change ((c :: y) ++ (10 :: lit "---" ++ [10]) ++ body)
      with (c :: (y ++ (10 :: lit "---" ++ [10]) ++ body)).
    cbn [split_at_first].
    change (c :: (y ++ (10 :: lit "---" ++ [10]) ++ body))
      with ((c :: y) ++ (10 :: lit "---" ++ [10]) ++ body).
    rewrite (front_matter_delimiter (c :: y) body) by easy.
    now rewrite (IH Ho).
Qed.

(** X7: the front matter written by [serialize_front_matter] is read back by
    [parse_front_matter]: when the dumped mapping ends with a newline and
    holds no line made of three dashes, the parser hands the dumped text
    without its last newline to the loader and returns the body exactly as
    it was written, whatever the body holds. *)
Theorem front_matter_round_trip
    (yaml : Type) (safe_load : str -> result yaml) (dump : yaml -> str)
    (falsy : yaml -> bool) (empty_dict : yaml)
    (front_matter : yaml) (body y : str) :
  dump front_matter = y ++ [10] ->
  occurs (10 :: lit "---" ++ [10]) (dump front_matter) = false ->
  parse_front_matter yaml safe_load falsy empty_dict
    (serialize_front_matter yaml dump front_matter body)
  = (loaded ← safe_load y;
     Ok (if falsy loaded then empty_dict else loaded, body)).
Proof.
  intros Hd Ho. unfold parse_front_matter, serialize_front_matter, re_front_matter.
  rewrite (app_assoc (lit "---") [10] (dump front_matter ++ _)).
  rewrite strip_prefix_here. cbn [mbind option_bind].
  rewrite Hd in *.
  replace ((y ++ [10]) ++ lit "---" ++ [10] ++ body)
    with (y ++ (10 :: lit "---" ++ [10]) ++ body).
  2:{ now rewrite <- !app_assoc. }
  now rewrite (split_at_first_delimiter y body Ho).
Qed.

Lemma front_matter_round_trip_witness :
  parse_front_matter str Ok (fun _ => false) []
    (serialize_front_matter str (fun d => d ++ [10]) (lit "word: leaf")
       (lit "A leaf." ++ 10 :: lit "---" ++ 10 :: lit "More."))
  = Ok (lit "word: leaf", lit "A leaf." ++ 10 :: lit "---" ++ 10 :: lit "More.").
Proof.
  apply (front_matter_round_trip str Ok (fun d => d ++ [10]) (fun _ => false) []
           (lit "word: leaf")
           (lit "A leaf." ++ 10 :: lit "---" ++ 10 :: lit "More.")
           (lit "word: leaf")).
  - reflexivity.
  - vm_compute. reflexivity.
Defined.

(** ** Link flattening only deletes *)

Lemma sub_from_sublist (m : matcher) :
  (forall prev s n r, m prev s = Some (n, r) -> r `sublist_of` take n s) ->
  forall s k prev, sub_from m k prev s `sublist_of` drop k s.
Proof.
  intros Hm s. induction s as [|c s IH]; intros k prev.
  - rewrite drop_nil. constructor.
  - cbn [sub_from]. destruct k as [|k]; [|apply IH].
    rewrite drop_0. pose proof (IH 0%nat (Some c)) as IH0. rewrite drop_0 in IH0.
    destruct (m prev (c :: s)) as [[n r]|] eqn:E.
    + apply Hm in E. destruct n as [|n].
      * rewrite take_0 in E. apply sublist_nil_r in E as ->.
        cbn. now apply sublist_cons.
      * change (take (S n) (c :: s)) with (c :: take n s) in E.
        cbn [Init.Nat.pred].
        replace (c :: s) with ((c :: take n s) ++ drop n s)
          by (cbn; now rewrite take_drop).
        apply sublist_app; [exact E|apply IH].
    + now apply sublist_skip.
Qed.

Lemma link_display_inv (t : str) n d :
  link_display t = Some (n, d) ->
  exists rest, t = d ++ 93 :: 93 :: rest /\ n = (length d + 2)%nat /\ d <> [].
Proof.
  unfold link_display. destruct (span not_rbracket t) as [d0 r] eqn:E.
  destruct (span_spec _ _ _ _ E) as (-> & _ & _).
  destruct d0 as [|c d0]; [discriminate|].
  destruct r as [|x [|y r]]; [discriminate| |].
  - by_head x discriminate.
  - destruct (x =? 93) eqn:Ex;
      [apply N.eqb_eq in Ex as ->|by_head x discriminate; discriminate].
    destruct (y =? 93) eqn:Ey;
      [apply N.eqb_eq in Ey as ->|by_head y discriminate; discriminate].
    intros [= <- <-]. now exists r.
Qed.

Lemma re_link_sublist prev (s : str) n r :
  re_link prev s = Some (n, r) -> r `sublist_of` take n s.
Proof.
  destruct s as [|c s]; [discriminate|].
  destruct (c =? 91) eqn:Ec; [|now rewrite re_link_head].
  apply N.eqb_eq in Ec as ->.
  destruct s as [|c t]; [discriminate|].
  destruct (c =? 91) eqn:Ec; [|by_head c discriminate; discriminate].
  apply N.eqb_eq in Ec as ->. revert n r.
  assert (Hw : forall n r,
             ('(n, d) ← link_display t; Some ((2 + n)%nat, d)) = Some (n, r) ->
             r `sublist_of` take n (91 :: 91 :: t)).
  { intros n r. destruct (link_display t) as [[k d]|] eqn:E; [|discriminate].
    cbn [mbind option_bind]. intros [= <- <-].
    destruct (link_display_inv _ _ _ E) as (rest & -> & -> & _).
    replace (91 :: 91 :: d ++ 93 :: 93 :: rest)
      with ((91 :: 91 :: d ++ [93; 93]) ++ rest)
      by (cbn; now rewrite <- app_assoc).
    rewrite take_app_length' by (cbn; rewrite length_app; cbn; lia).
    do 2 apply sublist_cons. now apply sublist_inserts_r. }
  intros n r. cbn [re_link].
  destruct (span not_bar_rbracket t) as [a r0] eqn:Ea.
  destruct (span_spec _ _ _ _ Ea) as (Ht & _ & _).
  destruct a as [|a0 a]; [apply Hw|].
  destruct r0 as [|x t']; [apply Hw|].
  destruct (x =? 124) eqn:Ex; [|by_head x (apply Hw); discriminate Ex].
  apply N.eqb_eq in Ex as ->.
  destruct (link_display t') as [[k d]|] eqn:E; [|apply Hw].
  intros [= <- <-].
  destruct (link_display_inv _ _ _ E) as (rest & -> & -> & _). subst t.
  replace (91 :: 91 :: (a0 :: a) ++ 124 :: d ++ 93 :: 93 :: rest)
    with ((91 :: 91 :: (a0 :: a) ++ 124 :: d ++ [93; 93]) ++ rest)
    by (cbn; rewrite <- !app_assoc; cbn; now rewrite <- !app_assoc).
  rewrite take_app_length'
    by (cbn; rewrite !length_app; cbn; rewrite !length_app; cbn; lia).
  do 2 apply sublist_cons. apply (sublist_inserts_l (a0 :: a)).
  apply sublist_cons. now apply sublist_inserts_r.
Qed.

(** X8: flattening links only deletes characters: what it returns is the
    text with some characters left out, none added and none moved. *)
Theorem flatten_links_only_deletes (etymology : str) :
  flatten_links etymology `sublist_of` etymology.
Proof.
  pose proof (sub_from_sublist re_link re_link_sublist etymology 0%nat None) as H.
  now rewrite drop_0 in H.
Qed.

(** ** Batch processing and fetching *)

Lemma process_from_spec (file : Type) (process_word_file : file -> bool) :
  forall (files : list file) (n i : Z) (updated_count : nat),
    n = (i + Z.of_nat (length files))%Z ->
    process_from file process_word_file n i files updated_count
    = ((updated_count + length (List.filter process_word_file files))%nat,
       paced files).
Proof.
  induction files as [|f files IH]; intros n i c Hn.
  - cbn. f_equal. lia.
  - cbn [process_from]. rewrite (IH n (i + 1)%Z) by (cbn [length] in Hn; lia).
    cbn [paced List.filter]. f_equal.
    + destruct (process_word_file f); cbn [length]; lia.
    + f_equal. destruct files as [|g files].
      * replace (i <? n - 1)%Z with false; [reflexivity|].
        symmetry. apply Z.ltb_ge. cbn in Hn. lia.
      * replace (i <? n - 1)%Z with true; [reflexivity|].
        symmetry. apply Z.ltb_lt. cbn [length] in Hn. lia.
Qed.

(** X9: [process_all] returns the number of files whose processing reported
    an update, processes the files in order, and pauses between two
    consecutive files only: never before the first and never after the
    last. *)
Theorem process_all_paced (file : Type) (process_word_file : file -> bool)
    (files : list file) :
  process_all file process_word_file files
  = (length (List.filter process_word_file files), paced files).
Proof.
  unfold process_all.
  now rewrite (process_from_spec file process_word_file files _ 0%Z 0%nat).
Qed.

Lemma parse_api_result_long unicode_upper unicode_isalnum ignorecase_eq
    (wikitext r : str) :
  fetch_etymology_parse_api unicode_upper unicode_isalnum ignorecase_eq wikitext
  = Some (Some r) ->
  (10 < length r)%nat.
Proof.
  unfold fetch_etymology_parse_api.
  destruct (find_section ignorecase_eq wikitext) as [g|]; [|discriminate].
  destruct (resolve_loop _ _) as [[[e n]|x]|]; try discriminate.
  unfold quality_gate.
  destruct (nonempty _ && (10 <? length _)%nat) eqn:E; [|discriminate].
  intros [= <-]. apply andb_true_iff in E as [_ E]. now apply Nat.ltb_lt in E.
Qed.

(** X10: [fetch_etymology] never returns the empty text: what it returns is
    the non-empty answer of the first source, or else an answer of the
    second source, which is longer than ten characters. *)
Theorem fetch_etymology_never_empty unicode_upper unicode_isalnum ignorecase_eq
    (wiktionary parse_reply : option str) (r : str) :
  fetch_etymology unicode_upper unicode_isalnum ignorecase_eq
    wiktionary parse_reply = Some (Some r) ->
  r <> [] /\ (wiktionary = Some r \/ (10 < length r)%nat).
Proof.
  unfold fetch_etymology.
  assert (Hf : match parse_reply with
               | Some wikitext =>
                 fetch_etymology_parse_api unicode_upper unicode_isalnum
                   ignorecase_eq wikitext
               | None => Some None
               end = Some (Some r) ->
               r <> [] /\ (wiktionary = Some r \/ (10 < length r)%nat)).
  { destruct parse_reply as [w|]; [|discriminate].
    intros H%parse_api_result_long. split; [|now right].
    intros ->. cbn in H. lia. }
  destruct wiktionary as [x|]; [|exact Hf].
  destruct (nonempty x) eqn:E; [|exact Hf].
  intros [= ->]. split; [|now left]. now destruct r.
Qed.

Lemma fetch_etymology_never_empty_witness :
  lit "Du *latin* *folium*." <> [] /\
  (@None str = Some (lit "Du *latin* *folium*.") \/
   (10 < length (lit "Du *latin* *folium*."))%nat).
Proof.
  apply (fetch_etymology_never_empty ascii_only_upper ascii_only_isalnum
           ascii_ignorecase_eq None
           (Some (lit "=== {{S|étymologie}} ===" ++ 10 ::
                  lit ": Du {{étyl|la|fr|mot=folium}}." ++ 10 ::
                  lit "=== {{S|nom|fr}} ==="))).
  vm_compute. reflexivity.
Defined.

(** ** Whitespace after scrubbing *)

Lemma double_space_app (a b : str) :
  occurs (lit "  ") a = false -> occurs (lit "  ") b = false ->
  last_is py_isspace a = false \/ head_is py_isspace b = false ->
  occurs (lit "  ") (a ++ b) = false.
Proof.
  change (lit "  ") with [32; 32].
  induction a as [|c a IH]; intros Ha Hb Hab; [exact Hb|].
  destruct (occurs_cons _ _ _ Ha) as [Hn Ho].
  assert (Hrec : occurs [32; 32] (a ++ b) = false).
  { apply IH; auto. destruct Hab as [H|H]; [|now right].
    left. destruct a as [|d a]; [reflexivity|]. now rewrite last_is_cons in H. }
  cbn [app occurs]. cbn [strip_prefix] in *.
  destruct (32 =? c) eqn:Ec; [|exact Hrec].
  destruct a as [|d a].
  - apply N.eqb_eq in Ec as <-. destruct Hab as [H|H]; [discriminate H|].
    cbn [app]. destruct b as [|y b]; [reflexivity|].
    destruct (32 =? y) eqn:Ey; [|exact Hrec].
    apply N.eqb_eq in Ey as <-. discriminate H.
  - cbn [app]. destruct (32 =? d); [discriminate Hn|exact Hrec].
Qed.

Lemma no_space_plain (u : str) :
  forallb no_space u = true -> forallb plain_space u = true.
Proof.
  induction u as [|c u IH]; [reflexivity|]. cbn [forallb].
  intros [Hc Hu]%andb_true_iff. unfold plain_space at 1.
  unfold no_space in Hc. rewrite Hc. now apply IH.
Qed.

Lemma no_space_last (u : str) :
  forallb no_space u = true -> last_is py_isspace u = false.
Proof.
  induction u as [|c u IH]; [reflexivity|]. cbn [forallb].
  intros [Hc Hu]%andb_true_iff. destruct u as [|d u].
  - unfold last_is. cbn. unfold no_space in Hc. now apply negb_true_iff in Hc.
  - rewrite last_is_cons by easy. now apply IH.
Qed.

Lemma no_space_single (u : str) :
  forallb no_space u = true -> occurs (lit "  ") u = false.
Proof.
  change (lit "  ") with [32; 32].
  induction u as [|c u IH]; [reflexivity|]. cbn [forallb].
  intros [Hc Hu]%andb_true_iff. cbn [occurs strip_prefix].
  destruct (32 =? c) eqn:Ec; [|now apply IH].
  apply N.eqb_eq in Ec as <-. discriminate Hc.
Qed.

Lemma re_trailing_inv prev (s : str) n r :
  re_trailing prev s = Some (n, r) -> r = [] /\ n = length s.
Proof.
  unfold re_trailing. destruct (span py_isspace s) as [ws t] eqn:E.
  destruct (span_spec _ _ _ _ E) as (-> & _ & _).
  destruct t as [|c t]; [discriminate|].
  destruct ((c =? 44) || (c =? 59)); [|discriminate].
  destruct (span py_isspace t) as [ws' r'] eqn:E'.
  destruct (span_spec _ _ _ _ E') as (-> & _ & _).
  destruct r'; [|discriminate]. intros [= <- <-]. split; [reflexivity|].
  rewrite !length_app. cbn [length]. rewrite length_app. cbn [length]. lia.
Qed.

Lemma re_trailing_space prev prev' (c : char) (s : str) :
  py_isspace c = true ->
  re_trailing prev s <> None -> re_trailing prev' (c :: s) <> None.
Proof.
  intros Hc. unfold re_trailing. cbn [span]. rewrite Hc.
  destruct (span py_isspace s) as [ws t]. destruct t as [|x t]; [easy|].
  destruct ((x =? 44) || (x =? 59)); [|easy].
  destruct (span py_isspace t) as [ws' r']. now destruct r'.
Qed.

Lemma re_trailing_prefix (s : str) :
  forall prev,
    (exists rest, s = sub_from re_trailing 0 prev s ++ rest) /\
    (last_is py_isspace s = false ->
     last_is py_isspace (sub_from re_trailing 0 prev s) = false).
Proof.
  induction s as [|c s IH]; intros prev; [split; [now exists []|easy]|].
  cbn [sub_from]. destruct (re_trailing prev (c :: s)) as [[n r]|] eqn:E.
  - destruct (re_trailing_inv _ _ _ _ E) as [-> ->].
    cbn [length Init.Nat.pred app].
    assert (Hk : sub_from re_trailing (length s) (Some c) s = []).
    { rewrite <- (app_nil_r s) at 2. now rewrite sub_from_skip. }
    rewrite Hk. split; [now exists (c :: s)|easy].
  - destruct (IH (Some c)) as [[rest Hs] Hl]. split.
    + exists rest. cbn [app]. now f_equal.
    + intros H.
      destruct (sub_from re_trailing 0 (Some c) s) as [|d out] eqn:Eo.
      * unfold last_is. cbn. destruct (py_isspace c) eqn:Hc; [exfalso|reflexivity].
        destruct s as [|d s]; [unfold last_is in H; cbn in H; congruence|].
        cbn [sub_from] in Eo.
        destruct (re_trailing (Some c) (d :: s)) as [[n r]|] eqn:E'; [|discriminate].
        apply (re_trailing_space (Some c) prev c (d :: s) Hc); [|exact E].
        now rewrite E'.
      * rewrite last_is_cons by easy. apply Hl.
        destruct s as [|e s]; [discriminate Eo|]. now rewrite last_is_cons in H.
Qed.

Lemma re_trailing_normalized (s : str) :
  normalized s = true -> normalized (re_sub re_trailing s) = true.
Proof.
  unfold normalized. rewrite !andb_true_iff, !negb_true_iff.
  intros (((Hp & Ho) & Hh) & Hl).
  destruct (re_trailing_prefix s None) as [[rest Hs] Hlast].
  fold (re_sub re_trailing s) in Hs, Hlast.
  rewrite Hs in Hp, Ho, Hh. rewrite forallb_app in Hp.
  apply andb_true_iff in Hp as [Hp _]. apply occurs_app_l in Ho.
  repeat split; auto.
  destruct (re_sub re_trailing s) as [|d out]; [reflexivity|exact Hh].
Qed.

Lemma py_isspace_letter (x : char) : 65 <= x <= 90 -> py_isspace x = false.
Proof.
  intros Hx. apply not_true_is_false. unfold py_isspace.
  rewrite !orb_true_iff, !andb_true_iff, !N.leb_le, !N.eqb_eq. lia.
Qed.

Lemma py_upper_text unicode_upper (c : char) :
  upper_keeps_text unicode_upper -> py_isspace c = false ->
  py_upper unicode_upper c <> [] /\
  forallb no_space (py_upper unicode_upper c) = true.
Proof.
  intros Hup Hc. unfold py_upper. destruct (c <? 128); [|now apply Hup].
  split; [discriminate|]. cbn [forallb]. rewrite andb_true_r. unfold no_space.
  destruct (is_ascii_lower c) eqn:El; [|now rewrite Hc].
  unfold is_ascii_lower in El. apply andb_true_iff in El as [H1 H2].
  apply N.leb_le in H1, H2. rewrite py_isspace_letter; [reflexivity|lia].
Qed.

Lemma capitalize_normalized unicode_upper (s : str) :
  upper_keeps_text unicode_upper ->
  normalized s = true -> normalized (capitalize unicode_upper s) = true.
Proof.
  intros Hup. destruct s as [|c rest]; [easy|].
  unfold normalized. rewrite !andb_true_iff, !negb_true_iff.
  intros (((Hp & Ho) & Hh) & Hl). cbn [capitalize].
  destruct (py_upper_text unicode_upper c Hup Hh) as [Hne Hu].
  cbn [forallb] in Hp. apply andb_true_iff in Hp as [_ Hp].
  apply occurs_cons in Ho as [_ Ho].
  repeat split.
  - rewrite forallb_app, Hp, andb_true_r. now apply no_space_plain.
  - apply double_space_app; [now apply no_space_single|exact Ho|].
    left. now apply no_space_last.
  - destruct (py_upper unicode_upper c) as [|x u]; [easy|].
    cbn [forallb] in Hu. apply andb_true_iff in Hu as [Hx _].
    unfold head_is. cbn. unfold no_space in Hx. now apply negb_true_iff in Hx.
  - destruct rest as [|d rest].
    + rewrite app_nil_r. now apply no_space_last.
    + rewrite last_is_app. now rewrite last_is_cons in Hl.
Qed.

(** X11: provided upper-casing a character that is no whitespace yields
    some text without whitespace, what the scrubber returns always has its
    whitespace in normal form: no whitespace character other than the plain
    space, no two spaces in a row, and no space at either end. *)
Theorem scrub_normalized unicode_upper unicode_isalnum (etymology : str) :
  upper_keeps_text unicode_upper ->
  normalized (scrub unicode_upper unicode_isalnum etymology) = true.
Proof.
  intros Hup. unfold scrub.
  apply capitalize_normalized; [exact Hup|].
  apply re_trailing_normalized, collapse_normalized.
Qed.

Lemma scrub_normalized_witness :
  normalized
    (scrub ascii_only_upper ascii_only_isalnum
       (9 :: lit "du  latin ''folium'' ,, (  ) ; ")) = true.
Proof.
  apply (scrub_normalized ascii_only_upper ascii_only_isalnum
           (9 :: lit "du  latin ''folium'' ,, (  ) ; ")).
  intros c Hc. split; [discriminate|].
  cbn. unfold no_space. rewrite Hc. reflexivity.
Defined.

(** ** The prose formatter only adds asterisks *)

Lemma prev_after_cons prev (c : char) (a : str) :
  prev_after prev (c :: a) = prev_after (Some c) a.
Proof.
  unfold prev_after. destruct a as [|x a]; [reflexivity|].
  change (last (c :: x :: a)) with (last (x :: a)).
  destruct (last (x :: a)) eqn:E; [reflexivity|]. now apply last_None in E.
Qed.

(** Induction along the scan of a substitution whose matches are never
    empty: the text is copied character by character, or a match is
    replaced and the scan goes on after it. *)
Lemma sub_from_scan (m : matcher) (P : option char -> str -> str -> Prop) :
  (forall prev s n r, m prev s = Some (n, r) ->
     exists a rest, s = a ++ rest /\ length a = n /\ a <> []) ->
  (forall prev, P prev [] []) ->
  (forall prev c s out,
     m prev (c :: s) = None -> P (Some c) s out -> P prev (c :: s) (c :: out)) ->
  (forall prev a rest r out,
     a <> [] -> m prev (a ++ rest) = Some (length a, r) ->
     P (prev_after prev a) rest out -> P prev (a ++ rest) (r ++ out)) ->
  forall s prev, P prev s (sub_from m 0 prev s).
Proof.
  intros Hlen Hnil Hcopy Hmatch s.
  remember (length s) as k eqn:Hk. revert s Hk.
  induction k as [k IH] using lt_wf_ind. intros s -> prev.
  destruct s as [|c s]; [apply Hnil|].
  destruct (m prev (c :: s)) as [[n r]|] eqn:E.
  - destruct (Hlen _ _ _ _ E) as (a & rest & Hs & Hn & Ha).
    destruct a as [|c' a]; [easy|]. cbn [app] in Hs. injection Hs as <- ->.
    cbn [length] in Hn. subst n.
    rewrite (sub_from_match _ _ _ _ _ _ E).
    change (c :: a ++ rest) with ((c :: a) ++ rest).
    apply Hmatch; [easy|exact E|]. rewrite prev_after_cons.
    apply (IH (length rest)); [|reflexivity].
    cbn [length]. rewrite length_app. lia.
  - cbn [sub_from]. rewrite E. apply Hcopy; [exact E|].
    apply (IH (length s)); [cbn; lia|reflexivity].
Qed.

Lemma re_language_inv unicode_isalnum lang prev (s : str) n r :
  re_language unicode_isalnum lang prev s = Some (n, r) ->
  exists ws w t2,
    s = lang ++ ws ++ w ++ t2 /\ ws <> [] /\ w <> [] /\
    forallb py_isspace ws = true /\ forallb is_ascii_letter w = true /\
    n = (length lang + length ws + length w)%nat /\
    r = lit "*" ++ lang ++ lit "* *" ++ w ++ lit "*".
Proof.
  unfold re_language.
  destruct (strip_prefix lang s) as [t|] eqn:Et; [|discriminate].
  apply strip_prefix_Some in Et as ->. cbn [mbind option_bind].
  destruct (word_boundary _ _ _); [|discriminate].
  destruct (span py_isspace t) as [ws t1] eqn:E1.
  destruct (span_spec _ _ _ _ E1) as (-> & Hws & _).
  destruct (span is_ascii_letter t1) as [w t2] eqn:E2.
  destruct (span_spec _ _ _ _ E2) as (-> & Hw & _).
  destruct ws as [|x ws]; [discriminate|]. destruct w as [|y w]; [discriminate|].
  destruct (word_boundary _ _ _); [|discriminate]. intros [= <- <-].
  exists (x :: ws), (y :: w), t2. repeat split; auto; easy.
Qed.

Lemma spaced_app_r (a b : str) : spaced (a ++ b) -> spaced b.
Proof.
  intros [Hp Ho]. rewrite forallb_app in Hp. apply andb_true_iff in Hp as [_ Hp].
  split; [exact Hp|]. now apply occurs_app_r in Ho.
Qed.

Lemma spaced_app_l (a b : str) : spaced (a ++ b) -> spaced a.
Proof.
  intros [Hp Ho]. rewrite forallb_app in Hp. apply andb_true_iff in Hp as [Hp _].
  split; [exact Hp|]. now apply occurs_app_l in Ho.
Qed.

Lemma plain_space_is_32 (x : char) :
  py_isspace x = true -> plain_space x = true -> x = 32.
Proof.
  intros H1 H2. unfold plain_space in H2. rewrite H1 in H2.
  now apply N.eqb_eq in H2.
Qed.

Lemma spaced_head (c : char) (s : str) :
  spaced (c :: s) -> py_isspace c = true -> head_is py_isspace s = false.
Proof.
  intros [Hp Ho] Hc. destruct s as [|y s]; [reflexivity|].
  unfold head_is. cbn. destruct (py_isspace y) eqn:Hy; [exfalso|reflexivity].
  cbn [forallb] in Hp. apply andb_true_iff in Hp as [Pc [Py _]%andb_true_iff].
  rewrite (plain_space_is_32 c Hc Pc), (plain_space_is_32 y Hy Py) in Ho.
  discriminate Ho.
Qed.

Lemma spaced_run (ws : str) :
  spaced ws -> ws <> [] -> forallb py_isspace ws = true -> ws = [32].
Proof.
  intros Hs Hne Hws. destruct ws as [|x ws]; [easy|].
  pose proof Hs as [Hp _]. cbn [forallb] in Hp, Hws.
  apply andb_true_iff in Hp as [Px _]. apply andb_true_iff in Hws as [Hx Hws].
  rewrite (plain_space_is_32 x Hx Px) in *.
  pose proof (spaced_head _ _ Hs eq_refl) as Hh.
  destruct ws as [|y ws]; [reflexivity|].
  cbn [forallb] in Hws. apply andb_true_iff in Hws as [Hy _].
  unfold head_is in Hh. cbn in Hh. congruence.
Qed.

Lemma letters_no_space (w : str) :
  forallb is_ascii_letter w = true -> forallb no_space w = true.
Proof.
  induction w as [|c w IH]; [reflexivity|]. cbn [forallb].
  intros [Hc Hw]%andb_true_iff. rewrite (IH Hw), andb_true_r.
  unfold no_space. apply negb_true_iff, not_true_is_false.
  unfold is_ascii_letter, is_ascii_lower in Hc. unfold py_isspace.
  rewrite !orb_true_iff, !andb_true_iff, !N.leb_le in Hc.
  rewrite !orb_true_iff, !andb_true_iff, !N.leb_le, !N.eqb_eq. lia.
Qed.

Lemma drop_stars_app (a b : str) :
  drop_stars (a ++ b) = drop_stars a ++ drop_stars b.
Proof. apply List.filter_app. Qed.

(** What one substitution of the formatter keeps, by induction along its
    scan. *)
Lemma re_language_scan unicode_isalnum lang (s : str) :
  forall prev,
    let out := sub_from (re_language unicode_isalnum lang) 0 prev s in
    (out = [] -> s = []) /\
    (head_is py_isspace out = true -> head_is py_isspace s = true) /\
    (spaced s -> spaced out /\ drop_stars out = drop_stars s) /\
    (last_is py_isspace s = false -> last_is py_isspace out = false).
Proof.
  intros prev. cbv zeta. revert s prev.
  apply (sub_from_scan (re_language unicode_isalnum lang)
           (fun _ s out =>
              (out = [] -> s = []) /\
              (head_is py_isspace out = true -> head_is py_isspace s = true) /\
              (spaced s -> spaced out /\ drop_stars out = drop_stars s) /\
              (last_is py_isspace s = false -> last_is py_isspace out = false))).
  - intros prev s n r E.
    destruct (re_language_inv _ _ _ _ _ _ E)
      as (ws & w & t2 & -> & Hws & _ & _ & _ & -> & _).
    exists (lang ++ ws ++ w), t2. split; [now rewrite <- !app_assoc|].
    split; [rewrite !length_app; lia|].
    intros H. apply (f_equal length) in H. rewrite !length_app in H.
    destruct ws; [easy|cbn in H; lia].
  - intros _. repeat split; auto.
  - intros prev c s out E (I1 & I2 & I3 & I4). repeat split.
    + discriminate.
    + auto.
    + destruct (I3 (spaced_suffix _ _ H)) as [[Hp Ho] _].
      destruct H as [Hps _]. cbn [forallb] in *.
      apply andb_true_iff in Hps as [-> _]. exact Hp.
    + destruct (I3 (spaced_suffix _ _ H)) as [[Hp Ho] _].
      apply (double_space_app [c] out); [|exact Ho|].
      { change (lit "  ") with [32; 32]. cbn [occurs strip_prefix].
        now destruct (32 =? c). }
      destruct (py_isspace c) eqn:Hc; [right|left; unfold last_is; cbn; exact Hc].
      pose proof (spaced_head _ _ H Hc) as Hh.
      destruct (head_is py_isspace out) eqn:Eo; [|reflexivity].
      rewrite (I2 eq_refl) in Hh. discriminate.
    + destruct (I3 (spaced_suffix _ _ H)) as [_ Hd].
      unfold drop_stars in *. cbn [List.filter]. now rewrite Hd.
    + intros H. pose proof (I4 (last_is_suffix _ _ _ H)) as Hl.
      destruct out as [|d out]; [|now rewrite last_is_cons].
      now rewrite (I1 eq_refl) in H.
  - intros prev a rest r out Ha E (I1 & I2 & I3 & I4).
    destruct (re_language_inv _ _ _ _ _ _ E)
      as (ws & w & t2 & Hs & Hws & Hw & Sws & Lw & Hn & ->).
    assert (Hr : lit "*" ++ lang ++ lit "* *" ++ w ++ lit "*"
                 = ([42] ++ lang ++ [42; 32; 42] ++ w) ++ [42])
      by (change (lit "*") with [42]; change (lit "* *") with [42; 32; 42];
          now rewrite <- !app_assoc).
    assert (Hlr : last_is py_isspace
                    (lit "*" ++ lang ++ lit "* *" ++ w ++ lit "*") = false)
      by (rewrite Hr; now rewrite last_is_app).
    repeat split.
    + intros H. apply (f_equal length) in H. rewrite Hr, !length_app in H.
      cbn in H. lia.
    + intros H. change (lit "*") with [42] in H. discriminate H.
    + assert (Ea : a = lang ++ ws ++ w /\ rest = t2).
      { apply app_inj_1; [rewrite !length_app; lia|].
        now rewrite <- !app_assoc. }
      destruct Ea as [-> ->].
      destruct (I3 (spaced_app_r _ _ H)) as [[Hp _] _].
      destruct H as [Hps _]. rewrite !forallb_app in Hps.
      apply andb_true_iff in Hps as [[Hl [_ Hpw]%andb_true_iff]%andb_true_iff _].
      change (lit "*") with [42]. change (lit "* *") with [42; 32; 42].
      rewrite !forallb_app, Hl, Hpw, Hp. reflexivity.
    + assert (Ea : a = lang ++ ws ++ w /\ rest = t2).
      { apply app_inj_1; [rewrite !length_app; lia|].
        now rewrite <- !app_assoc. }
      destruct Ea as [-> ->].
      destruct (I3 (spaced_app_r _ _ H)) as [[_ Ho] _].
      apply spaced_app_l in H.
      pose proof (spaced_app_l _ _ H) as [_ Hol].
      pose proof (spaced_app_r _ _ (spaced_app_r _ _ H)) as [_ How].
      apply double_space_app; [|exact Ho|now left].
      change (lit "*") with [42]. change (lit "* *") with [42; 32; 42].
      apply (double_space_app [42]); [reflexivity| |now left].
      apply double_space_app; [exact Hol| |now right].
      apply (double_space_app [42; 32; 42]); [reflexivity| |now left].
      apply double_space_app; [exact How|reflexivity|now right].
    + assert (Ea : a = lang ++ ws ++ w /\ rest = t2).
      { apply app_inj_1; [rewrite !length_app; lia|].
        now rewrite <- !app_assoc. }
      destruct Ea as [-> ->].
      destruct (I3 (spaced_app_r _ _ H)) as [_ Hd].
      apply spaced_app_l in H.
      rewrite (spaced_run ws (spaced_app_l _ _ (spaced_app_r _ _ H)) Hws Sws).
      change (lit "*") with [42]. change (lit "* *") with [42; 32; 42].
      rewrite !drop_stars_app, Hd.
      change (drop_stars [42]) with (@nil N).
      change (drop_stars [42; 32; 42]) with [32].
      change (drop_stars [32]) with [32].
      cbn [app]. rewrite app_nil_r. now rewrite <- !app_assoc.
    + intros H. destruct out as [|d out]; [now rewrite app_nil_r|].
      rewrite last_is_app. apply I4.
      destruct rest as [|z rest]; [reflexivity|]. now rewrite last_is_app in H.
Qed.

Lemma re_language_keeps unicode_isalnum lang (s : str) :
  normalized s = true ->
  normalized (re_sub (re_language unicode_isalnum lang) s) = true /\
  drop_stars (re_sub (re_language unicode_isalnum lang) s) = drop_stars s.
Proof.
  unfold normalized. rewrite !andb_true_iff, !negb_true_iff.
  intros (((Hp & Ho) & Hh) & Hl).
  destruct (re_language_scan unicode_isalnum lang s None) as (_ & I2 & I3 & I4).
  fold (re_sub (re_language unicode_isalnum lang) s) in I2, I3, I4.
  destruct (I3 (conj Hp Ho)) as [[Hp' Ho'] Hd]. split; [|exact Hd].
  repeat split; auto.
  destruct (head_is py_isspace (re_sub _ s)) eqn:E; [|reflexivity].
  rewrite (I2 eq_refl) in Hh. discriminate.
Qed.

Lemma format_loop_keeps unicode_isalnum (langs : list str) :
  forall text,
    normalized text = true ->
    let out := fold_left
                 (fun text lang => re_sub (re_language unicode_isalnum lang) text)
                 langs text in
    normalized out = true /\ drop_stars out = drop_stars text.
Proof.
  induction langs as [|lang langs IH]; intros text Hn; [now split|].
  cbn [fold_left].
  destruct (re_language_keeps unicode_isalnum lang text Hn) as [Hn' Hd].
  destruct (IH _ Hn') as [Hn'' Hd']. split; [exact Hn''|]. now rewrite <- Hd.
Qed.

(** X12: the prose formatter changes the cleaned text by adding asterisks
    only: without the asterisks, what [format_etymology] returns is what
    [clean_html] returns; and its whitespace is still in normal form. *)
Theorem format_etymology_adds_stars_only unicode_isalnum (raw_etymology : str) :
  drop_stars (format_etymology unicode_isalnum raw_etymology)
  = drop_stars (clean_html raw_etymology) /\
  normalized (format_etymology unicode_isalnum raw_etymology) = true.
Proof.
  assert (Hc : normalized (clean_html raw_etymology) = true)
    by (unfold clean_html; apply collapse_normalized).
  unfold format_etymology.
  destruct (format_loop_keeps unicode_isalnum languages
              (clean_html raw_etymology) Hc) as [Hn Hd].
  now split.
Qed.

(** ** Pages whose etymology section is not followed by a heading *)










(** ** Whitespace around the name and the parameters of a template *)

Lemma dropwhile_app p (a b : str) :
  dropwhile p (a ++ b)
  = if forallb p a then dropwhile p b else dropwhile p a ++ b.
Proof.
  induction a as [|c a IH]; [reflexivity|]. cbn [app dropwhile forallb].
  destruct (p c); [exact IH|reflexivity].
Qed.

Lemma dropwhile_all p (a : str) : forallb p a = true -> dropwhile p a = [].
Proof.
  induction a as [|c a IH]; [reflexivity|]. cbn [forallb dropwhile].
  intros [-> H]%andb_true_iff. now apply IH.
Qed.

Lemma strip_chars_pad p (l s r : str) :
  forallb p l = true -> forallb p r = true ->
  strip_chars p (l ++ s ++ r) = strip_chars p s.
Proof.
  intros Hl Hr. unfold strip_chars.
  rewrite (dropwhile_app p l), Hl, (dropwhile_app p s).
  destruct (forallb p s) eqn:Hs.
  - rewrite (dropwhile_all p r Hr), (dropwhile_all p s Hs). reflexivity.
  - rewrite reverse_app, dropwhile_app, forallb_reverse, Hr. reflexivity.
Qed.

Lemma blank_plain (l : str) :
  forallb py_isspace l = true ->
  brace_free l = true /\ contains 124 l = false /\ contains 61 l = false.
Proof.
  induction l as [|c l IH]; [easy|]. cbn [forallb].
  intros [Hc Hl]%andb_true_iff. destruct (IH Hl) as (H1 & H2 & H3).
  assert (Hn : c <> 123 /\ c <> 125 /\ c <> 124 /\ c <> 61).
  { repeat split; intros ->; discriminate Hc. }
  destruct Hn as (N1 & N2 & N3 & N4).
  unfold brace_free, contains in *. cbn [forallb existsb].
  rewrite H1, H2, H3. unfold not_brace, is_brace.
  apply N.eqb_neq in N1, N2, N3, N4.
  rewrite N1, N2, (N.eqb_sym 124 c), N3, (N.eqb_sym 61 c), N4. easy.
Qed.

Lemma contains_app (k : char) (a b : str) :
  contains k (a ++ b) = contains k a || contains k b.
Proof. apply existsb_app. Qed.

Lemma split_on_plain (a : str) :
  contains 124 a = false -> split_on 124 a = [a].
Proof.
  induction a as [|c a IH]; [reflexivity|]. intros H.
  apply contains_cons in H as [Hc Ha]. cbn [split_on]. now rewrite Hc, (IH Ha).
Qed.

Lemma split_on_app_sep (a rest : str) :
  contains 124 a = false ->
  split_on 124 (a ++ 124 :: rest) = a :: split_on 124 rest.
Proof.
  induction a as [|c a IH]; [reflexivity|]. intros H.
  apply contains_cons in H as [Hc Ha]. cbn [app split_on].
  now rewrite Hc, (IH Ha).
Qed.

Lemma split_on_join (parts : list str) :
  forall name,
    plain_part name = true -> forallb plain_part parts = true ->
    split_on 124 (name ++ concat (map (cons 124) parts)) = name :: parts /\
    brace_free (name ++ concat (map (cons 124) parts)) = true.
Proof.
  induction parts as [|p parts IH]; intros name Hn Hp;
    unfold plain_part in Hn; apply andb_true_iff in Hn as [Hb Hc];
    apply negb_true_iff in Hc.
  - cbn. rewrite app_nil_r. split; [now apply split_on_plain|exact Hb].
  - cbn [forallb] in Hp. apply andb_true_iff in Hp as [Hp Hps].
    destruct (IH p Hp Hps) as [Hs Hf].
    cbn [map concat app]. split.
    + rewrite (split_on_app_sep _ _ Hc). now rewrite Hs.
    + rewrite brace_free_app, Hb. exact Hf.
Qed.

Lemma parse_template_of (name : str) (parts : list str) :
  plain_part name = true -> forallb plain_part parts = true ->
  parse_wiki_template (template_of name parts)
  = ('(named_params, positional_params) ← parse_params parts ∅ [];
     interpret (strip name) named_params positional_params).
Proof.
  intros Hn Hp. destruct (split_on_join parts name Hn Hp) as [Hs Hf].
  unfold parse_wiki_template, template_of.
  change (lit "{{") with [123; 123]. change (lit "}}") with [125; 125].
  replace ([123; 123] ++ name ++ concat (map (cons 124) parts) ++ [125; 125])
    with ([123; 123] ++ (name ++ concat (map (cons 124) parts)) ++ [125; 125])
    by now rewrite <- !app_assoc.
  rewrite (strip_braces_delimited _ Hf), Hs.
  cbn [nonempty negb getitem lookup list_lookup mbind result_bind].
  change (drop 1 (name :: parts)) with (drop 0 parts). now rewrite drop_0.
Qed.

Lemma split_once_pad (part l r : str) :
  contains 61 l = false ->
  split_once 61 (l ++ part ++ r)
  = match split_once 61 part with
    | [k; v] => [l ++ k; v ++ r]
    | _ => split_once 61 (l ++ part ++ r)
    end.
Proof.
  intros Hl. induction l as [|c l IH].
  - cbn [app]. induction part as [|x part IHp]; [reflexivity|].
    cbn [app split_once]. destruct (x =? 61); [reflexivity|].
    destruct (split_once 61 part) as [|k [|v [|w rest]]]; try reflexivity.
    now rewrite IHp.
  - apply contains_cons in Hl as [Hc Hl]. specialize (IH Hl).
    cbn [app split_once]. rewrite Hc.
    destruct (split_once 61 part) as [|k [|v [|w rest]]]; try reflexivity.
    now rewrite IH.
Qed.

Lemma parse_params_pad (parts : list str) :
  forall (pads : list (str * str)) named_params positional_params,
    length pads = length parts -> forallb blank pads = true ->
    parse_params (zip_with pad pads parts) named_params positional_params
    = parse_params parts named_params positional_params.
Proof.
  induction parts as [|part parts IH]; intros pads named pos Hlen Hb.
  - now destruct pads.
  - destruct pads as [|[l r] pads]; [discriminate|].
    cbn [forallb] in Hb. apply andb_true_iff in Hb as [Hb Hbs].
    unfold blank in Hb. cbn [fst snd] in Hb. apply andb_true_iff in Hb as [Hl Hr].
    destruct (blank_plain l Hl) as (_ & _ & El).
    destruct (blank_plain r Hr) as (_ & _ & Er).
    cbn [zip_with parse_params]. change (pad (l, r) part) with (l ++ part ++ r).
    rewrite !contains_app, El, Er, orb_false_r. cbn [orb].
    injection Hlen as Hlen.
    destruct (contains 61 part) eqn:Ec.
    + destruct (split_once_contains _ _ Ec) as (k & v & Ekv).
      rewrite (split_once_pad part l r El), Ekv.
      replace (l ++ k) with (l ++ k ++ []) by now rewrite app_nil_r.
      rewrite <- (app_nil_l (v ++ r)). unfold strip.
      rewrite !strip_chars_pad by easy. now apply IH.
    + unfold strip. rewrite strip_chars_pad by easy. now apply IH.
Qed.

(** X14: whitespace around the name of a template and around its parameter
    parts is ignored: for a name and parts that hold neither a brace nor a
    bar, the template parser gives the same result with and without the
    padding. *)
Theorem template_padding_ignored (name : str) (parts : list str)
    (around : str * str) (pads : list (str * str)) :
  plain_part name = true -> forallb plain_part parts = true ->
  blank around = true -> forallb blank pads = true ->
  length pads = length parts ->
  parse_wiki_template (template_of (pad around name) (zip_with pad pads parts))
  = parse_wiki_template (template_of name parts).
Proof.
  intros Hn Hp Ha Hb Hlen.
  assert (Hplain : forall p s, blank p = true -> plain_part s = true ->
                               plain_part (pad p s) = true).
  { intros [l r] s Hlr Hs. unfold blank in Hlr. cbn [fst snd] in Hlr.
    apply andb_true_iff in Hlr as [Hl Hr].
    destruct (blank_plain l Hl) as (L1 & L2 & _).
    destruct (blank_plain r Hr) as (R1 & R2 & _).
    unfold plain_part in *. apply andb_true_iff in Hs as [S1 S2].
    apply negb_true_iff in S2. unfold pad. cbn [fst snd].
    now rewrite !brace_free_app, !contains_app, L1, L2, R1, R2, S1, S2. }
  assert (Hps : forallb plain_part (zip_with pad pads parts) = true).
  { clear Hn Ha. revert pads Hb Hlen.
    induction parts as [|part parts IH]; intros [|p pads] Hb Hlen;
      try reflexivity; try discriminate.
    cbn [forallb zip_with] in *.
    apply andb_true_iff in Hp as [Hp1 Hp2]. apply andb_true_iff in Hb as [Hb1 Hb2].
    rewrite (Hplain _ _ Hb1 Hp1). injection Hlen as Hlen. now apply IH. }
  rewrite (parse_template_of _ _ (Hplain _ _ Ha Hn) Hps).
  rewrite (parse_template_of _ _ Hn Hp).
  rewrite (parse_params_pad parts pads ∅ [] Hlen Hb).
  destruct around as [l r]. unfold blank in Ha. cbn [fst snd] in Ha.
  apply andb_true_iff in Ha as [Hl Hr]. unfold pad. cbn [fst snd].
  unfold strip at 1. now rewrite strip_chars_pad by easy.
Qed.

Lemma template_padding_ignored_witness :
  parse_wiki_template (lit "{{ étyl | la |fr| mot=chaos }}")
  = parse_wiki_template (lit "{{étyl|la|fr|mot=chaos}}").
Proof.
  apply (template_padding_ignored (lit "étyl")
           [lit "la"; lit "fr"; lit "mot=chaos"]
           (lit " ", lit " ")
           [(lit " ", lit " "); ([], []); (lit " ", lit " ")]);
    vm_compute; reflexivity.
Defined.

(** ** The see-also section *)

Ltac app_norm :=
  repeat first [rewrite <- app_assoc | progress cbn [app]]; reflexivity.

Lemma link_ok_inv (l : str * str) :
  link_ok l = true ->
  l.1 <> [] /\ contains 93 l.1 = false /\ contains 10 l.1 = false /\
  l.2 <> [] /\ contains 41 l.2 = false /\ contains 10 l.2 = false.
Proof.
  unfold link_ok. rewrite !andb_true_iff, !negb_true_iff.
  intros (((((H1 & H2) & H3) & H4) & H5) & H6).
  repeat split; auto; intros E; rewrite E in *; discriminate.
Qed.

Lemma re_markdown_link_here (l : str * str) (rest : str) :
  link_ok l = true ->
  re_markdown_link (markdown_link l ++ rest)
  = Some (length (markdown_link l), l).
Proof.
  destruct l as [t u]. intros (Ht & T93 & _ & Hu & U41 & _)%link_ok_inv.
  cbn [fst snd] in *. unfold markdown_link. cbn [fst snd].
  replace (([91] ++ t ++ [93; 40] ++ u ++ [41]) ++ rest)
    with (91 :: (t ++ 93 :: 40 :: (u ++ 41 :: rest)))
    by app_norm.
  cbn [re_markdown_link].
  rewrite (span_app not_rbracket t 93) by
    (try reflexivity; now apply not_contains_forallb).
  destruct t as [|t0 t]; [easy|].
  rewrite (span_app not_rparen u 41) by
    (try reflexivity; now apply not_contains_forallb).
  destruct u as [|u0 u]; [easy|].
  f_equal. f_equal. cbn [length app]. rewrite !length_app. cbn [length].
  rewrite !length_app. cbn [length]. lia.
Qed.

Lemma find_from_skip {A} (m : str -> option (nat * A)) (a rest : str) :
  find_from m (length a) (a ++ rest) = find_from m 0 rest.
Proof. induction a as [|c a IH]; [reflexivity|exact IH]. Qed.

Lemma find_from_match {A} (m : str -> option (nat * A)) (a rest : str) x :
  a <> [] -> m (a ++ rest) = Some (length a, x) ->
  find_from m 0 (a ++ rest) = x :: find_from m 0 rest.
Proof.
  destruct a as [|c a]; [easy|]. intros _ E.
  cbn [app find_from] in *. rewrite E. cbn [length Init.Nat.pred].
  now rewrite find_from_skip.
Qed.

Lemma markdown_link_nonempty (l : str * str) : markdown_link l <> [].
Proof. discriminate. Qed.

Lemma find_links (links : list (str * str)) :
  forallb link_ok links = true ->
  find_from re_markdown_link 0 (links_line links) = links.
Proof.
  induction links as [|l links IH]; [reflexivity|].
  cbn [forallb links_line]. intros [Hl Hls]%andb_true_iff.
  rewrite (find_from_match _ _ _ l (markdown_link_nonempty l)
             (re_markdown_link_here l _ Hl)).
  f_equal. destruct links as [|l' links']; [reflexivity|].
  change (lit ", ") with [44; 32]. cbn [app find_from].
  change (re_markdown_link (44 :: _)) with (@None (nat * (str * str))).
  change (re_markdown_link (32 :: _)) with (@None (nat * (str * str))).
  cbv iota. now apply IH.
Qed.

Lemma links_line_shape (links : list (str * str)) :
  links <> [] -> forallb link_ok links = true ->
  contains 10 (links_line links) = false /\
  head_is py_isspace (links_line links) = false /\
  last_is py_isspace (links_line links) = false /\
  exists rest, links_line links = 91 :: rest.
Proof.
  induction links as [|l links IH]; [easy|]. intros _.
  cbn [forallb links_line]. intros [Hl Hls]%andb_true_iff.
  destruct l as [t u]. apply link_ok_inv in Hl as (_ & _ & T10 & _ & _ & U10).
  cbn [fst snd] in *.
  assert (Hm : contains 10 (markdown_link (t, u)) = false).
  { unfold markdown_link. cbn [fst snd]. rewrite !contains_app, T10, U10.
    reflexivity. }
  assert (Hlast : forall z, last_is py_isspace (markdown_link (t, u) ++ z)
                            = last_is py_isspace (41 :: z)).
  { intros z. unfold markdown_link. cbn [fst snd].
    replace (([91] ++ t ++ [93; 40] ++ u ++ [41]) ++ z)
      with (([91] ++ t ++ [93; 40] ++ u) ++ 41 :: z)
      by app_norm.
    apply last_is_app. }
  destruct links as [|l' links'].
  - rewrite app_nil_r. repeat split; [exact Hm|now rewrite <- (app_nil_r (markdown_link _)), Hlast|].
    now eexists.
  - destruct (IH ltac:(easy) Hls) as (I10 & _ & Il & _).
    change (lit ", ") with [44; 32]. repeat split.
    + now rewrite !contains_app, Hm, I10.
    + rewrite Hlast. rewrite <- Il.
      change (41 :: [44; 32] ++ links_line (l' :: links'))
        with ([41; 44; 32] ++ links_line (l' :: links')).
      destruct (links_line (l' :: links')) as [|x z] eqn:E; [|now rewrite !last_is_app].
      cbn [links_line] in E. destruct l'. discriminate E.
    + now eexists.
Qed.

Lemma see_also_group_line (line post : str) :
  contains 10 line = false ->
  see_also_group (line ++ 10 :: 10 :: post) = Some (line, (length line + 2)%nat).
Proof.
  induction line as [|c line IH]; intros H; [reflexivity|].
  apply contains_cons in H as [Hc Hl].
  cbn [app see_also_group].
  assert (E : see_also_end (c :: line ++ 10 :: 10 :: post) = None).
  { unfold see_also_end. cbn [forallb]. rewrite (N.eqb_sym 10 c), Hc.
    by_head c reflexivity. discriminate Hc. }
  rewrite E, (IH Hl). reflexivity.
Qed.

Section SeeAlsoSection.

Variable ignorecase_eq : char -> char -> bool.
Hypothesis ignorecase_refl : forall c, ignorecase_eq c c = true.

Lemma re_see_also_here (links : list (str * str)) (post : str) :
  links <> [] -> forallb link_ok links = true ->
  re_see_also ignorecase_eq
    (lit "**See also:** " ++ links_line links ++ [10; 10] ++ post)
  = Some (length (lit "**See also:** " ++ links_line links ++ [10; 10]),
          links_line links).
Proof.
  intros Hne Hok.
  destruct (links_line_shape links Hne Hok) as (H10 & _ & _ & rest & Hrest).
  unfold re_see_also.
  change (lit "**See also:** ")
    with ([42; 42] ++ [83; 101; 101] ++ [32] ++ [97; 108; 115; 111] ++
          [58; 42; 42] ++ [32]).
  change (lit "**") with [42; 42]. change (lit "See") with [83; 101; 101].
  change (lit " ") with [32]. change (lit "also") with [97; 108; 115; 111].
  change (lit ":**") with [58; 42; 42].
  rewrite <- !app_assoc. rewrite strip_prefix_here. cbn [mbind option_bind].
  assert (Hci : forall pre s, strip_prefix_ci ignorecase_eq pre (pre ++ s) = Some s).
  { induction pre as [|x pre IH]; intros s; [reflexivity|].
    cbn [app strip_prefix_ci]. now rewrite ignorecase_refl. }
  rewrite Hci. cbn [mbind option_bind].
  rewrite strip_prefix_here. cbn [mbind option_bind].
  rewrite Hci. cbn [mbind option_bind].
  rewrite strip_prefix_here. cbn [mbind option_bind].
  assert (Hsp : span py_isspace ([32] ++ links_line links ++ [10; 10] ++ post)
                = ([32], links_line links ++ [10; 10] ++ post))
    by (rewrite Hrest; reflexivity).
  rewrite Hsp. change ([10; 10] ++ post) with (10 :: 10 :: post).
  rewrite (see_also_group_line _ post H10). cbn [mbind option_bind].
  f_equal. f_equal. cbn [length]. rewrite !length_app. cbn [length]. lia.
Qed.

Lemma re_see_also_head (c : char) (s : str) :
  (c =? 42) = false -> re_see_also ignorecase_eq (c :: s) = None.
Proof.
  intros Hc. unfold re_see_also. change (lit "**") with [42; 42].
  cbn [strip_prefix]. now rewrite (N.eqb_sym 42 c), Hc.
Qed.

Lemma re_search_prefix {A} (m : str -> option A) (pre rest : str) x :
  (forall c s, contains c pre = true -> m (c :: s) = None) ->
  m rest = Some x -> re_search m (pre ++ rest) = Some x.
Proof.
  intros Hpre Hm. induction pre as [|c pre IH].
  - destruct rest; cbn [app re_search]; now rewrite Hm.
  - cbn [app re_search]. rewrite Hpre.
    + apply IH. intros d s Hd. apply Hpre. unfold contains in *. cbn [existsb].
      now rewrite Hd, orb_true_r.
    + unfold contains. cbn [existsb]. now rewrite N.eqb_refl.
Qed.

Lemma sub_from_prefix (m : matcher) (pre rest : str) :
  (forall prev c s, contains c pre = true -> m prev (c :: s) = None) ->
  forall prev,
    sub_from m 0 prev (pre ++ rest)
    = pre ++ sub_from m 0 (prev_after prev pre) rest.
Proof.
  intros Hpre. induction pre as [|c pre IH]; intros prev; [reflexivity|].
  cbn [app sub_from]. rewrite Hpre.
  - rewrite IH, prev_after_cons; [reflexivity|].
    intros p d s Hd. apply Hpre. unfold contains in *. cbn [existsb].
    now rewrite Hd, orb_true_r.
  - unfold contains. cbn [existsb]. now rewrite N.eqb_refl.
Qed.

Lemma see_also_quiet (s : str) prev :
  occurs (lit "**") s = false ->
  quiet (fun _ s => '(n, _) ← re_see_also ignorecase_eq s; Some (n, [])) prev s.
Proof.
  revert s prev. apply (quiet_by (fun s => occurs (lit "**") s = false)).
  - intros c s H. now apply occurs_cons in H.
  - intros prev c s [H _]%occurs_cons. unfold re_see_also. now rewrite H.
Qed.

End SeeAlsoSection.

(** X15: a see-also line is taken apart as it was written: from a body made
    of a text without asterisk, the marker, a line of links separated by
    commas, a blank line and a text without doubled asterisk,
    [extract_see_also] returns exactly the links of the line, in order, and
    the two texts put together and stripped. *)
Theorem see_also_line_extracted (ignorecase_eq : char -> char -> bool)
    (pre post : str) (links : list (str * str)) :
  (forall c, ignorecase_eq c c = true) ->
  contains 42 pre = false -> occurs (lit "**") post = false ->
  links <> [] -> forallb link_ok links = true ->
  extract_see_also ignorecase_eq
    (pre ++ lit "**See also:** " ++ links_line links ++ [10; 10] ++ post)
  = (links, strip (pre ++ post)).
Proof.
  intros Hrefl Hpre Hpost Hne Hok.
  pose proof (re_see_also_here ignorecase_eq Hrefl links post Hne Hok) as Hm.
  destruct (links_line_shape links Hne Hok) as (H10 & Hh & Hl & _).
  assert (Hnot : forall c, contains c pre = true -> (c =? 42) = false).
  { intros c Hc. destruct (c =? 42) eqn:E; [|reflexivity].
    apply N.eqb_eq in E as ->. congruence. }
  unfold extract_see_also.
  rewrite (re_search_prefix _ pre _ _
             (fun c s Hc => re_see_also_head ignorecase_eq c s (Hnot c Hc)) Hm).
  rewrite (strip_clean _ Hh Hl), (find_links links Hok). f_equal. f_equal.
  unfold re_sub. rewrite sub_from_prefix.
  2:{ intros prev c s Hc.
      now rewrite (re_see_also_head ignorecase_eq c s (Hnot c Hc)). }
  f_equal.
  replace (lit "**See also:** " ++ links_line links ++ [10; 10] ++ post)
    with ((lit "**See also:** " ++ links_line links ++ [10; 10]) ++ post) in *
    by now rewrite <- !app_assoc.
  change (lit "**See also:** ") with (42 :: lit "*See also:** ") in *.
  cbn [app] in *.
  rewrite (sub_from_match _ _ _ _ _ [])
    by (cbn [length] in Hm; now rewrite Hm).
  cbn [app]. apply sub_from_quiet, see_also_quiet, Hpost.
Qed.

Lemma see_also_line_extracted_witness :
  extract_see_also ascii_ignorecase_eq
    (lit "A leaf." ++ [10; 10] ++ lit "**See also:** " ++
     links_line [(lit "Stem", lit "/s/stem/"); (lit "Root", lit "/r/root/")] ++
     [10; 10] ++ lit "More.")
  = ([(lit "Stem", lit "/s/stem/"); (lit "Root", lit "/r/root/")],
     strip ((lit "A leaf." ++ [10; 10]) ++ lit "More.")).
Proof.
  rewrite (app_assoc (lit "A leaf.") [10; 10]).
  apply (see_also_line_extracted ascii_ignorecase_eq
           (lit "A leaf." ++ [10; 10]) (lit "More.")
           [(lit "Stem", lit "/s/stem/"); (lit "Root", lit "/r/root/")]).
  - intros c. unfold ascii_ignorecase_eq. apply N.eqb_refl.
  - vm_compute. reflexivity.
  - vm_compute. reflexivity.
  - discriminate.
  - vm_compute. reflexivity.
Defined.
